(** * rw.c: Rabin-Williams signatures with Bleichenbacher compression

    A shallow embedding of [src/rw.c] and the properties of its
    arithmetic pipeline: prime generation under a congruence constraint,
    the quadratic-residue oracle, the residue tweak, CRT root extraction,
    continued-fraction compression and the verification loop.

    GMP integers ([mpz_t]) are unbounded, so they are embedded as [Z]; the
    C [unsigned] loop index keeps its 32-bit wrap-around.  Anything that
    can stop the process ([abort()], GMP's division-by-zero trap) is an
    explicit outcome. *)

From Stdlib Require Import ZArith Lia List Bool Permutation Znumtheory.
From Stdlib Require Import Zmod.ZmodInv.
From Stdlib Require Strings.Byte.
Import ListNotations.
Local Open Scope Z_scope.

(** ** Outcomes of a run *)

Inductive outcome (A : Type) : Type :=
| Ret (a : A)       (* the code ran to the end of the block *)
| Aborted           (* a call of abort() *)
| DivideByZero      (* GMP traps on a zero divisor *)
| OutOfFuel.        (* the model ran out of iterations *)

Arguments Ret {A} a.
Arguments Aborted {A}.
Arguments DivideByZero {A}.
Arguments OutOfFuel {A}.

Definition bind {A B : Type} (m : outcome A) (k : A -> outcome B) : outcome B :=
  match m with
  | Ret a => k a
  | Aborted => Aborted
  | DivideByZero => DivideByZero
  | OutOfFuel => OutOfFuel
  end.

Notation "x <- m ;; k" := (bind m (fun x => k))
  (at level 61, m at next level, right associativity).
Notation "' pat <- m ;; k" := (bind m (fun x => match x with pat => k end))
  (at level 61, pat pattern, m at next level, right associativity).

(** ** The GMP primitives the program calls *)

Module Mpz.

(** [mpz_mod r n d]: the result is always non-negative; the sign of the
    divisor is ignored. *)
Definition mod_ (n d : Z) : outcome Z :=
  if d =? 0 then DivideByZero else Ret (n mod Z.abs d).

(** [mpz_powm r base exp mod] for a non-negative exponent, the only use
    in rw.c.  A negative exponent, for which GMP inverts the base or
    traps, is outside this model. *)
Definition powm (base exp m : Z) : outcome Z :=
  if m =? 0 then DivideByZero else Ret ((base ^ exp) mod Z.abs m).

(** [mpz_fdiv_qr q r n d]: quotient rounded towards minus infinity, the
    remainder has the sign of the divisor. *)
Definition fdiv_qr (n d : Z) : outcome (Z * Z) :=
  if d =? 0 then DivideByZero else Ret (n / d, n mod d).

(** [mpz_cdiv_q_2exp q n b]: quotient by [2^b] rounded up. *)
Definition cdiv_q_2exp (n b : Z) : Z := - ((- n) / 2 ^ b).

(** [mpz_sqrt] and [mpz_sqrtrem] truncate; rw.c only calls them on
    non-negative operands. *)
Definition sqrt (n : Z) : Z := Z.sqrt n.
Definition sqrtrem (n : Z) : Z * Z := Z.sqrtrem n.

Definition sgn (n : Z) : Z := Z.sgn n.
Definition setbit (n i : Z) : Z := Z.setbit n i.
Definition clrbit (n i : Z) : Z := Z.clearbit n i.

(** [mpz_import r count 1 1 0 0 buf]: [count] one-byte words, most
    significant first. *)
Definition import (buf : list Byte.byte) : Z :=
  fold_left (fun acc b => acc * 256 + Z.of_N (Byte.to_N b)) buf 0.

End Mpz.

(** ** The randomness source

    [/dev/urandom] is an explicit stream of what each [read] call does.
    A read delivers some bytes (never more than asked for) or fails with
    [-1], [errno] being [EINTR] or something else.  A stream that has run
    dry reports end of file. *)

Inductive read_event : Type :=
| Delivers (data : list Byte.byte)
| Fails (eintr : bool).

Definition source := list read_event.

Record read_result : Type := mkRead {
  rd_ret : Z;                    (* the ssize_t returned *)
  rd_eintr : bool;               (* errno == EINTR after the call *)
  rd_data : list Byte.byte       (* what was stored in the buffer *)
}.

Definition sys_read (src : source) (count : Z) : read_result * source :=
  match src with
  | [] => (mkRead 0 false [], [])
  | Delivers d :: rest =>
      let d' := firstn (Z.to_nat count) d in
      (mkRead (Z.of_nat (length d')) false d', rest)
  | Fails e :: rest => (mkRead (-1) e [], rest)
  end.

(** [do { r = read(urfd, buffer, bytes); } while (r == -1 && errno == EINTR);] *)
Fixpoint read_retry (src : source) (count : Z) : read_result * source :=
  match src with
  | [] => sys_read [] count
  | ev :: rest =>
      let '(r, src') := sys_read (ev :: rest) count in
      if (rd_ret r =? -1) && rd_eintr r then read_retry rest count
      else (r, src')
  end.

(** ** time_now (rw.c 19-29)

    The [struct timeval] that gettimeofday fills is an argument.  [r] is a
    [uint64_t]: the conversions and the arithmetic wrap at 2^64. *)

Definition u64 (x : Z) : Z := x mod 2 ^ 64.

Definition time_now (tv_sec tv_usec : Z) : Z :=
  let r := u64 tv_sec in
  let r := u64 (r * 1000000) in
  let r := u64 (r + u64 tv_usec) in
  r.

(** Line 315: [end_time - start_time], both [uint64_t]. *)
Definition elapsed_usec (start_time end_time : Z) : Z :=
  u64 (end_time - start_time).

Definition sizeof_buffer : Z := 2048.

Section Program.

(** [mpz_probab_prime_p n reps] is GMP's: 0 for a composite, 1 for a
    probable prime, 2 for a certain prime. *)
Variable mpz_probab_prime_p : Z -> Z -> Z.

(** *** init_random_prime (rw.c 38-76) *)

Definition force_low_bits (n mod8 : Z) : Z :=
  let n := Mpz.setbit n 0 in
  let n := if negb (Z.land mod8 2 =? 0) then Mpz.setbit n 1 else Mpz.clrbit n 1 in
  let n := if negb (Z.land mod8 4 =? 0) then Mpz.setbit n 2 else Mpz.clrbit n 2 in
  n.

Fixpoint random_prime_loop (fuel : nat) (src : source) (bytes mod8 : Z)
  : outcome (Z * source) :=
  match fuel with
  | O => OutOfFuel
  | S fuel' =>
      let '(r, src') := read_retry src bytes in
      if negb (rd_ret r =? bytes) then Aborted
      else
        let n := force_low_bits (Mpz.import (rd_data r)) mod8 in
        if negb (mpz_probab_prime_p n 10 =? 0) then Ret (n, src')
        else random_prime_loop fuel' src' bytes mod8
  end.

Definition init_random_prime (fuel : nat) (src : source) (size mod8 : Z)
  : outcome (Z * source) :=
  let bytes := Z.shiftr size 3 in
  if bytes >? sizeof_buffer then Aborted
  else random_prime_loop fuel src bytes mod8.

(** *** random_element (rw.c 85-106) *)

Definition random_element (src : source) (size n : Z) : outcome (Z * source) :=
  let bytes := Z.shiftr size 3 in
  if bytes >? sizeof_buffer then Aborted
  else
    let '(r, src') := read_retry src bytes in
    if negb (rd_ret r =? bytes) then Aborted
    else
      e <- Mpz.mod_ (Mpz.import (rd_data r)) n ;;
      Ret (e, src').

(** *** is_quadratic_residue (rw.c 113-132) *)

Definition is_quadratic_residue (e p power : Z) : outcome bool :=
  emod <- Mpz.mod_ e p ;;
  r <- Mpz.powm e power p ;;
  let r := r * r in
  r <- Mpz.mod_ r p ;;
  Ret (r =? emod).

(** *** signature_compress (rw.c 142-180)

    [vs] is the four-slot array of convergents, an array being a map
    from its indices.  [s] and [n] are [mpz_t] arguments, passed by
    reference and overwritten by the divisions, so the state of the loop
    holds them and the result reports what the caller finds in them
    afterwards. *)

Definition u32 (x : Z) : Z := x mod 2 ^ 32.

Definition upd (vs : Z -> Z) (i x : Z) : Z -> Z :=
  fun j => if j =? i then x else vs j.

Record cf_state : Type := mkCf {
  cf_vs : Z -> Z;
  cf_s : Z;
  cf_n : Z;
  cf_i : Z
}.

Definition cf_init (s n : Z) : cf_state :=
  mkCf (upd (upd (fun _ => 0) 0 0) 1 1) s n 1.

(** One pass through the body of the do-while loop. *)
Definition cf_step (st : cf_state) : outcome cf_state :=
  let i := Z.land (u32 (cf_i st + 1)) 3 in
  '(cf, s, n) <-
    (if negb (Z.land i 1 =? 0)
     then '(quo, r) <- Mpz.fdiv_qr (cf_s st) (cf_n st) ;; Ret (quo, r, cf_n st)
     else '(quo, r) <- Mpz.fdiv_qr (cf_n st) (cf_s st) ;; Ret (quo, cf_s st, r)) ;;
  let vs := cf_vs st in
  let vs := upd vs i (vs (Z.land (u32 (i - 1)) 3) * cf) in
  let vs := upd vs i (vs i + vs (Z.land (u32 (i - 2)) 3)) in
  Ret (mkCf vs s n i).

Fixpoint cf_loop (fuel : nat) (root : Z) (st : cf_state) : outcome cf_state :=
  match fuel with
  | O => OutOfFuel
  | S fuel' =>
      st' <- cf_step st ;;
      if cf_vs st' (cf_i st') <? root then cf_loop fuel' root st'
      else Ret st'
  end.

Record compressed : Type := mkCompressed {
  zsig : Z;          (* the output *)
  s_after : Z;       (* the caller's s when the call returns *)
  n_after : Z        (* the caller's n when the call returns *)
}.

Definition signature_compress (fuel : nat) (s n : Z) : outcome compressed :=
  let root := Mpz.sqrt n in
  st <- cf_loop fuel root (cf_init s n) ;;
  Ret (mkCompressed (cf_vs st (Z.land (u32 (cf_i st - 1)) 3)) (cf_s st) (cf_n st)).

(** *** main (rw.c 182-318), block by block *)

(** Modelled from the spec: [xgcd], which main calls at line 202 and
    which neither rw.c nor GMP defines.  The spec has it run the extended
    GCD on (p, q) and hand back the Bezout coefficients (u0, v0) of
    u0*p + v0*q = gcd(p, q). *)
Definition xgcd (p q : Z) : Z * Z :=
  let '(u0, v0, _) := Z.extgcd p q in (u0, v0).

(** Lines 195-204: the modulus and the CRT coefficients. *)
Definition group_builder (p q : Z) : Z * Z * Z :=
  let n := p * q in
  let '(u, v) := xgcd p q in
  let u := u * p in
  let v := v * q in
  (n, u, v).

(** Lines 252-260: the exponent (x + 1) / 4, rounded up.  The calls of
    the oracle at lines 216-217 leave its third argument out; they are
    given this value, which is what is_quadratic_residue documents for
    [power]. *)
Definition p1over4 (x : Z) : Z := Mpz.cdiv_q_2exp (x + 1) 2.

(** Lines 221-232: which tweaks the residue state asks for. *)
Definition tweak_flags (a b : bool) : bool * bool :=
  let '(mul_2, a) := if xorb a b then (true, xorb a true) else (false, a) in
  let '(negate, a, b) :=
    if negb a then (true, xorb a true, xorb b true) else (false, a, b) in
  (mul_2, negate).

(** Lines 235-242: the tweaks applied to e in place. *)
Definition apply_tweak (e n : Z) (mul_2 negate : bool) : outcome Z :=
  let e := if negate then - e else e in
  let e := if mul_2 then e * 2 else e in
  if negate || mul_2 then Mpz.mod_ e n else Ret e.

Definition residue_tweak (e p q n : Z) : outcome (Z * bool * bool) :=
  a <- is_quadratic_residue e p (p1over4 p) ;;
  b <- is_quadratic_residue e q (p1over4 q) ;;
  let '(mul_2, negate) := tweak_flags a b in
  e <- apply_tweak e n mul_2 negate ;;
  Ret (e, mul_2, negate).

(** Lines 246-248: [uint8_t root; read(urfd, &root, 1); root &= 3;].
    The value read returns is dropped.  When the read stores nothing,
    [root] keeps whatever the stack held, the [garbage] byte. *)
Definition select_root (garbage : Byte.byte) (src : source) : Z * source :=
  let '(r, src') := sys_read src 1 in
  let root := match rd_data r with b :: _ => b | [] => garbage end in
  (Z.land (Z.of_N (Byte.to_N root)) 3, src').

(** Lines 252-278: the two roots and their CRT combination. *)
Definition root_extract (e p q u v n root : Z) : outcome Z :=
  let pp1over4 := p1over4 p in
  let qp1over4 := p1over4 q in
  proot <- Mpz.powm e pp1over4 p ;;
  qroot <- Mpz.powm e qp1over4 q ;;
  let proot := if negb (Z.land root 1 =? 0) then - proot else proot in
  let qroot := if negb (Z.land root 2 =? 0) then - qroot else qroot in
  let proot := proot * v in
  let qroot := qroot * u in
  let proot := proot + qroot in
  Mpz.mod_ proot n.

(** Lines 301-311: the body of the verification loop. *)
Definition verify_once (zsig e n : Z) : outcome Z :=
  let zsigcopy := zsig in
  let zsigcopy := zsigcopy * zsigcopy in
  let zsigcopy := zsigcopy * e in
  zsigcopy <- Mpz.mod_ zsigcopy n ;;
  if Mpz.sgn zsigcopy =? 0 then Aborted
  else
    let '(t, t2) := Mpz.sqrtrem zsigcopy in
    if negb (Mpz.sgn t2 =? 0) then Aborted else Ret t.

(** Lines 300-312: [iters] passes, each on the same zsig, e and n. *)
Fixpoint verify_loop (iters : nat) (zsig e n : Z) : outcome unit :=
  match iters with
  | O => Ret tt
  | S k => _ <- verify_once zsig e n ;; verify_loop k zsig e n
  end.

(** Line 300: [for (i = 0; i < 1000000; ++i)]. *)
Definition verifications : nat := Z.to_nat 1000000.

Record run : Type := mkRun {
  run_p : Z; run_q : Z; run_n : Z; run_u : Z; run_v : Z;
  run_e : Z;                       (* the tweaked element *)
  run_mul_2 : bool; run_negate : bool;
  run_root : Z;
  run_sig : Z;                     (* proot when it is printed at line 280 *)
  run_sig_after : Z;               (* proot after signature_compress *)
  run_zsig : Z
}.

(** Lines 184-287: everything up to the compressed signature. *)
Definition pipeline (fuel : nat) (garbage : Byte.byte) (src : source) : outcome run :=
  '(p, src) <- init_random_prime fuel src 512 3 ;;
  '(q, src) <- init_random_prime fuel src 512 7 ;;
  let '(n, u, v) := group_builder p q in
  '(e, src) <- random_element src 1024 n ;;
  '(e, mul_2, negate) <- residue_tweak e p q n ;;
  let '(root, src) := select_root garbage src in
  proot <- root_extract e p q u v n root ;;
  let ncopy := n in
  c <- signature_compress fuel proot ncopy ;;
  Ret (mkRun p q n u v e mul_2 negate root proot (s_after c) (zsig c)).

Definition main (fuel : nat) (garbage : Byte.byte) (src : source) : outcome run :=
  r <- pipeline fuel garbage src ;;
  _ <- verify_loop verifications (run_zsig r) (run_e r) (run_n r) ;;
  Ret r.

End Program.


(** ** Vocabulary of the specification *)

(** (p - 1) / 2, the exponent of Euler's criterion. *)
Definition half (p : Z) : Z := (p - 1) / 2.

(** e is a quadratic residue mod p: some x has x*x = e (mod p). *)
Definition QR (e p : Z) : Prop := exists x, (x * x) mod p = e mod p.

Definition prod (l : list Z) : Z := fold_right Z.mul 1 l.

Definition range (lo len : nat) : list Z := map Z.of_nat (seq lo len).

Definition upto (m : Z) : list Z := range 1 (Z.to_nat m).

(** 2*x folded back into 1..h, where p = 2*h + 1, and the sign the
    folding costs. *)
Definition fold_back (p h x : Z) : Z := if 2 * x <=? h then 2 * x else p - 2 * x.
Definition fold_sign (h x : Z) : Z := if 2 * x <=? h then 1 else -1.

(** Primality of small numbers by trial division. *)
Definition trial_prime (p : Z) : bool :=
  (1 <? p) && forallb (fun d => negb (p mod d =? 0)) (range 2 (Z.to_nat (p - 2))).

(** A primality test that answers 2 exactly on the primes it can certify
    by trial division, as GMP does for small operands. *)
Definition trial_probab_prime_p (n reps : Z) : Z := if trial_prime n then 2 else 0.

(** The newest convergent, the one before it, and the operands of the
    division the next pass performs. *)
Definition cur (st : cf_state) : Z := cf_vs st (cf_i st).
Definition prev (st : cf_state) : Z := cf_vs st (Z.land (u32 (cf_i st - 1)) 3).
Definition odd_index (st : cf_state) : bool := negb (Z.land (cf_i st) 1 =? 0).
Definition big (st : cf_state) : Z := if odd_index st then cf_n st else cf_s st.
Definition small (st : cf_state) : Z := if odd_index st then cf_s st else cf_n st.

(** What every pass of the loop keeps true, started on (S0, N0): the
    operands are a strictly decreasing Euclidean pair with the gcd of the
    inputs, the convergents split N0 between them, and each convergent
    times S0 is, up to an alternating sign, the matching remainder
    modulo N0. *)
Record cf_inv (N0 S0 : Z) (st : cf_state) : Prop := mkInv {
  inv_index : 0 <= cf_i st <= 3;
  inv_pair : 0 <= small st < big st;
  inv_split : cur st * big st + prev st * small st = N0;
  inv_gcd : Z.gcd (big st) (small st) = Z.gcd S0 N0;
  inv_prev : 0 <= prev st;
  inv_cur : 1 <= cur st;
  inv_s : 0 <= cf_s st <= S0;
  inv_n : 0 <= cf_n st <= N0;
  inv_sign : exists sg, (sg = 1 \/ sg = -1)
                        /\ (N0 | cur st * S0 - sg * small st)
                        /\ (N0 | prev st * S0 + sg * big st)
}.

(** Byte streams for concrete runs. *)
Definition zeros (k : nat) : list Byte.byte := repeat Byte.x00 k.

(** 64 zero bytes make p = 3; 63 zero bytes and 0x1f make q = 31. *)
Definition src_group : source :=
  [Delivers (zeros 64); Delivers (zeros 63 ++ [Byte.x1f])].

(** e = 7, root byte 0. *)
Definition src_nonsquare : source :=
  src_group ++ [Delivers (zeros 127 ++ [Byte.x07]); Delivers [Byte.x00]].

(** e = 4, root byte 0. *)
Definition src_square : source :=
  src_group ++ [Delivers (zeros 127 ++ [Byte.x04]); Delivers [Byte.x00]].

(** e = 4, and the read of the root byte is interrupted once. *)
Definition src_interrupted : source :=
  src_group ++ [Delivers (zeros 127 ++ [Byte.x04]); Fails true; Delivers [Byte.x01]].


(** ** Arithmetic modulo a prime p with p = 3 (mod 4) *)

Lemma Zprime_pos p : Z.prime p -> 2 <= p.
Proof. apply Z.prime_ge_2. Qed.

Lemma cong_divide a b m : a mod m = b mod m <-> (m | a - b).
Proof.
  rewrite Z.cong_iff_ex. split; intros [k Hk]; exists k; lia.
Qed.

Lemma mod_small_divide p t : 0 <= t < p -> (p | t) -> t = 0.
Proof.
  intros Ht [k Hk]. subst t.
  destruct (Z.eq_dec k 0) as [->|Hk]; [lia|].
  assert (k <= -1 \/ 1 <= k) as [Hn|Hn] by lia; nia.
Qed.

Lemma pow_mod_mul a b e m :
  (a * b) ^ e mod m = ((a ^ e mod m) * (b ^ e mod m)) mod m.
Proof. rewrite Z.pow_mul_l. apply Zmult_mod. Qed.

Section Blum.

Variable p : Z.
Hypothesis Hprime : Z.prime p.
Hypothesis Hmod4 : p mod 4 = 3.

Lemma blum_shape : exists k, 0 <= k /\ p = 4 * k + 3.
Proof.
  pose proof (Zprime_pos p Hprime).
  exists (p / 4). split.
  - apply Z.div_pos; lia.
  - pose proof (Z.div_mod p 4 ltac:(lia)). lia.
Qed.

Lemma half_odd : exists k, 0 <= k /\ half p = 2 * k + 1 /\ p = 2 * half p + 1
                           /\ p1over4 p = k + 1.
Proof.
  destruct blum_shape as [k [Hk Hp]]. exists k.
  assert (Hh : half p = 2 * k + 1).
  { unfold half. rewrite Hp. replace (4 * k + 3 - 1) with ((2 * k + 1) * 2) by lia.
    apply Z.div_mul. lia. }
  repeat split; try lia.
  unfold p1over4, Mpz.cdiv_q_2exp. rewrite Hp.
  replace (- (4 * k + 3 + 1)) with ((- (k + 1)) * 2 ^ 2) by lia.
  rewrite Z.div_mul by lia. lia.
Qed.

(** Fermat's little theorem, in the shape the proofs use. *)
Lemma fermat_twice a : a mod p <> 0 -> (a ^ half p * a ^ half p) mod p = 1.
Proof.
  intros Ha. destruct half_odd as [k [Hk [Hh [Hp _]]]].
  rewrite <- Z.pow_add_r by lia.
  replace (half p + half p) with (p - 1) by lia.
  apply Z.fermat_nz; assumption.
Qed.

Lemma euler_sign a :
  a mod p <> 0 -> a ^ half p mod p = 1 \/ a ^ half p mod p = p - 1.
Proof.
  intros Ha. pose proof (Zprime_pos p Hprime) as Hp2.
  pose proof (fermat_twice a Ha) as Hsq.
  set (t := a ^ half p mod p) in *.
  assert (Ht : 0 <= t < p) by (apply Z.mod_pos_bound; lia).
  assert (Hdiv : (p | (t - 1) * (t + 1))).
  { replace ((t - 1) * (t + 1)) with (t * t - 1) by ring.
    apply cong_divide. unfold t. rewrite <- Z.mul_mod by lia.
    rewrite Hsq. symmetry. apply Z.mod_small. lia. }
  apply Z.divide_prime_mul in Hdiv; [|assumption].
  destruct Hdiv as [[c Hc]|[c Hc]].
  - left. assert (c = 0) by nia. lia.
  - right. assert (c = 1) by nia. lia.
Qed.

Lemma quarter_exact : p1over4 p = (p + 1) / 4.
Proof.
  destruct half_odd as [k [Hk [Hh [Hp Hq]]]]. rewrite Hq.
  replace (p + 1) with ((k + 1) * 4) by lia.
  rewrite Z.div_mul; lia.
Qed.

(** The candidate root e^((p+1)/4) squares to e^half p * e. *)
Lemma candidate_square a :
  (a ^ p1over4 p * a ^ p1over4 p) mod p = ((a ^ half p mod p) * (a mod p)) mod p.
Proof.
  destruct half_odd as [k [Hk [Hh [Hp Hq]]]]. rewrite Hq.
  rewrite <- Z.pow_add_r by lia.
  replace (k + 1 + (k + 1)) with (half p + 1) by lia.
  rewrite Z.pow_add_r by lia. rewrite Z.pow_1_r.
  apply Zmult_mod.
Qed.

Lemma qr_euler a : QR a p -> a mod p = 0 \/ a ^ half p mod p = 1.
Proof.
  intros [x Hx]. pose proof (Zprime_pos p Hprime) as Hp2.
  destruct half_odd as [k [Hk [Hh [Hp _]]]].
  destruct (Z.eq_dec (x mod p) 0) as [Hz|Hnz].
  - left. rewrite <- Hx, Zmult_mod, Hz. reflexivity.
  - right. rewrite <- Z.mod_pow_l, <- Hx, Z.mod_pow_l.
    rewrite <- Z.pow_2_r, <- Z.pow_mul_r by lia.
    replace (2 * half p) with (p - 1) by lia.
    apply Z.fermat_nz; assumption.
Qed.

Lemma euler_qr a : a mod p = 0 \/ a ^ half p mod p = 1 -> QR a p.
Proof.
  intros H. pose proof (Zprime_pos p Hprime) as Hp2.
  exists (a ^ p1over4 p). rewrite candidate_square.
  destruct H as [H|H]; rewrite H.
  - rewrite Z.mul_0_r. apply Z.mod_0_l. lia.
  - rewrite Z.mul_1_l. apply Z.mod_mod. lia.
Qed.

Lemma qr_iff a : QR a p <-> a mod p = 0 \/ a ^ half p mod p = 1.
Proof. split; [apply qr_euler | apply euler_qr]. Qed.

Lemma nonresidue_iff a : ~ QR a p <-> a mod p <> 0 /\ a ^ half p mod p = p - 1.
Proof.
  pose proof (Zprime_pos p Hprime) as Hp2. rewrite qr_iff. split.
  - intros Hn. assert (Ha : a mod p <> 0) by tauto.
    split; [assumption|]. destruct (euler_sign a Ha); tauto.
  - intros [Ha Hm] [H|H]; [tauto|]. rewrite H in Hm.
    destruct blum_shape as [k [Hk Hp]]. lia.
Qed.

Lemma qr_dec a : QR a p \/ ~ QR a p.
Proof.
  rewrite qr_iff.
  destruct (Z.eq_dec (a mod p) 0); [tauto|].
  destruct (Z.eq_dec (a ^ half p mod p) 1); tauto.
Qed.

(** What the oracle computes. *)
Lemma oracle_value a :
  is_quadratic_residue a p (p1over4 p)
  = Ret ((a ^ p1over4 p mod p * (a ^ p1over4 p mod p)) mod p =? a mod p).
Proof.
  pose proof (Zprime_pos p Hprime) as Hp2.
  unfold is_quadratic_residue, Mpz.mod_, Mpz.powm.
  destruct (Z.eqb_spec p 0) as [|_]; [lia|]. simpl.
  rewrite Z.abs_eq by lia. reflexivity.
Qed.

Lemma oracle_sound a b :
  is_quadratic_residue a p (p1over4 p) = Ret b -> (b = true <-> QR a p).
Proof.
  rewrite oracle_value. intros [= <-].
  rewrite <- Zmult_mod, Z.eqb_eq. split.
  - intros H. exists (a ^ p1over4 p). exact H.
  - intros H. apply qr_euler in H. rewrite candidate_square.
    pose proof (Zprime_pos p Hprime) as Hp2.
    destruct H as [H|H]; rewrite H.
    + rewrite Z.mul_0_r. apply Z.mod_0_l. lia.
    + rewrite Z.mul_1_l. apply Z.mod_mod. lia.
Qed.

(** -1 is not a square modulo p. *)
Lemma euler_minus_one : (-1) ^ half p mod p = p - 1.
Proof.
  pose proof (Zprime_pos p Hprime) as Hp2.
  destruct half_odd as [k [Hk [Hh _]]]. rewrite Hh.
  rewrite Z.pow_add_r, Z.pow_mul_r by lia.
  change ((-1) ^ 2) with 1. rewrite Z.pow_1_l by lia.
  change (1 * (-1) ^ 1) with (-1).
  rewrite <- (Z.mod_small (p - 1) p) by lia.
  apply cong_divide. exists (-1). lia.
Qed.

Lemma euler_mul a b :
  (a * b) ^ half p mod p = ((a ^ half p mod p) * (b ^ half p mod p)) mod p.
Proof. apply pow_mod_mul. Qed.

Lemma minus_one_squared : ((p - 1) * (p - 1)) mod p = 1.
Proof.
  pose proof (Zprime_pos p Hprime) as Hp2.
  transitivity (1 mod p); [|apply Z.mod_small; lia].
  apply cong_divide. exists (p - 2). ring.
Qed.

(** Scaling by c keeps squares square when c is one itself... *)
Lemma qr_scale c a : c ^ half p mod p = 1 -> QR a p -> QR (c * a) p.
Proof.
  pose proof (Zprime_pos p Hprime) as Hp2.
  intros Hc Ha. apply qr_iff. apply qr_euler in Ha. destruct Ha as [Ha|Ha].
  - left. rewrite Zmult_mod, Ha, Z.mul_0_r. apply Z.mod_0_l. lia.
  - right. rewrite euler_mul, Hc, Ha. apply Z.mod_small. lia.
Qed.

(** ... and turns non-squares into squares when c is none. *)
Lemma nonresidue_scale c a :
  c ^ half p mod p = p - 1 -> ~ QR a p -> QR (c * a) p.
Proof.
  intros Hc Ha. apply qr_iff. apply nonresidue_iff in Ha. destruct Ha as [_ Ha].
  right. rewrite euler_mul, Hc, Ha. apply minus_one_squared.
Qed.

(** Residuosity mod p only sees the class mod p. *)
Lemma qr_mod_multiple a m : QR (a mod (p * m)) p <-> QR a p.
Proof.
  unfold QR. rewrite Z.mod_mod_divide by (exists m; ring). reflexivity.
Qed.

End Blum.

(** ** The quadratic character of 2

    The products 2*1, 2*2, ..., 2*h, each folded back into 1..h by
    replacing 2*x with p - 2*x when it exceeds h, are a rearrangement of
    1..h.  Comparing the two products gives 2^h = (-1)^(h - h/2) mod p. *)

Lemma in_range lo len x :
  In x (range lo len) <-> Z.of_nat lo <= x < Z.of_nat lo + Z.of_nat len.
Proof.
  unfold range. rewrite in_map_iff. split.
  - intros [k [<- Hk]]. apply in_seq in Hk. lia.
  - intros Hx. exists (Z.to_nat x). split; [lia|]. apply in_seq. lia.
Qed.

Lemma in_upto m x : In x (upto m) <-> 1 <= x <= m.
Proof. unfold upto. rewrite in_range. lia. Qed.

Lemma NoDup_range lo len : NoDup (range lo len).
Proof.
  unfold range. apply NoDup_map_NoDup_ForallPairs.
  - intros a b _ _. apply Nat2Z.inj.
  - apply seq_NoDup.
Qed.

Lemma range_app lo a b : range lo (a + b) = range lo a ++ range (lo + a) b.
Proof. unfold range. rewrite seq_app, map_app. reflexivity. Qed.

Lemma length_range lo len : length (range lo len) = len.
Proof. unfold range. rewrite length_map, length_seq. reflexivity. Qed.

Lemma prod_app l1 l2 : prod (l1 ++ l2) = prod l1 * prod l2.
Proof.
  induction l1 as [|x l1 IH]; simpl.
  - destruct (prod l2); reflexivity.
  - fold (prod (l1 ++ l2)). fold (prod l1). rewrite IH. ring.
Qed.

Lemma prod_perm l l' : Permutation l l' -> prod l = prod l'.
Proof.
  induction 1 as [|x l l' _ IH|x y l|l l' l'' _ IH1 _ IH2]; simpl.
  - reflexivity.
  - fold (prod l). fold (prod l'). rewrite IH. reflexivity.
  - fold (prod l). ring.
  - congruence.
Qed.

Lemma prod_const (f : Z -> Z) c l :
  (forall x, In x l -> f x = c) -> prod (map f l) = c ^ Z.of_nat (length l).
Proof.
  induction l as [|x l IH]; intros Hc.
  - reflexivity.
  - cbn [map length]. rewrite Nat2Z.inj_succ, Z.pow_succ_r by lia.
    simpl. fold (prod (map f l)).
    rewrite Hc by (left; reflexivity).
    rewrite IH by (intros; apply Hc; right; assumption). reflexivity.
Qed.

Lemma prod_scaled (f sg : Z -> Z) c m l :
  (forall x, In x l -> f x mod m = (sg x * c * x) mod m) ->
  prod (map f l) mod m
  = (prod (map sg l) * c ^ Z.of_nat (length l) * prod l) mod m.
Proof.
  induction l as [|x l IH]; intros Hf.
  - reflexivity.
  - cbn [map length]. rewrite Nat2Z.inj_succ, Z.pow_succ_r by lia.
    simpl. fold (prod (map f l)). fold (prod (map sg l)). fold (prod l).
    rewrite Zmult_mod, Hf by (left; reflexivity).
    rewrite IH by (intros; apply Hf; right; assumption).
    rewrite <- Zmult_mod. f_equal. ring.
Qed.

Lemma minus_one_pow_even t : 0 <= t -> (-1) ^ (2 * t) = 1.
Proof.
  intros Ht. rewrite Z.pow_mul_r by lia. change ((-1) ^ 2) with 1.
  apply Z.pow_1_l. assumption.
Qed.

Lemma minus_one_pow_odd t : 0 <= t -> (-1) ^ (2 * t + 1) = -1.
Proof.
  intros Ht. rewrite Z.pow_add_r, minus_one_pow_even by lia. reflexivity.
Qed.

Section CharacterOfTwo.

Variables p h : Z.
Hypothesis Hprime : Z.prime p.
Hypothesis Hhalf : p = 2 * h + 1.

Lemma h_pos : 1 <= h.
Proof. pose proof (Zprime_pos p Hprime). lia. Qed.

Lemma fold_back_range x : 1 <= x <= h -> 1 <= fold_back p h x <= h.
Proof. unfold fold_back. destruct (Z.leb_spec (2 * x) h); lia. Qed.

Lemma fold_back_inj x y :
  1 <= x <= h -> 1 <= y <= h -> fold_back p h x = fold_back p h y -> x = y.
Proof.
  unfold fold_back.
  destruct (Z.leb_spec (2 * x) h); destruct (Z.leb_spec (2 * y) h); lia.
Qed.

Lemma fold_back_cong x :
  fold_back p h x mod p = (fold_sign h x * 2 * x) mod p.
Proof.
  unfold fold_back, fold_sign. destruct (Z.leb_spec (2 * x) h).
  - f_equal; ring.
  - apply cong_divide. exists 1. ring.
Qed.

Lemma fold_back_perm : Permutation (map (fold_back p h) (upto h)) (upto h).
Proof.
  apply NoDup_Permutation_bis.
  - apply NoDup_map_NoDup_ForallPairs; [|apply NoDup_range].
    intros x y Hx Hy. apply in_upto in Hx, Hy. apply fold_back_inj; assumption.
  - rewrite length_map. apply Nat.le_refl.
  - intros y Hy. apply in_map_iff in Hy. destruct Hy as [x [<- Hx]].
    apply in_upto in Hx. apply in_upto. apply fold_back_range. assumption.
Qed.

Lemma fold_sign_prod : prod (map (fold_sign h) (upto h)) = (-1) ^ (h - h / 2).
Proof.
  pose proof h_pos as Hh.
  assert (Hd : 0 <= h / 2) by (apply Z.div_pos; lia).
  pose proof (Z.div_mod h 2 ltac:(lia)) as Hdm.
  pose proof (Z.mod_pos_bound h 2 ltac:(lia)) as Hb.
  unfold upto.
  replace (Z.to_nat h) with (Z.to_nat (h / 2) + Z.to_nat (h - h / 2))%nat by lia.
  rewrite range_app, map_app, prod_app.
  rewrite (prod_const (fold_sign h) 1), (prod_const (fold_sign h) (-1)).
  - rewrite Z.pow_1_l by lia. rewrite length_range, Z2Nat.id by lia. ring.
  - intros x Hx. apply in_range in Hx. unfold fold_sign.
    destruct (Z.leb_spec (2 * x) h); lia.
  - intros x Hx. apply in_range in Hx. unfold fold_sign.
    destruct (Z.leb_spec (2 * x) h); lia.
Qed.

Lemma factorial_unit : ~ (p | prod (upto h)).
Proof.
  assert (H : forall l, (forall x, In x l -> 1 <= x <= h) -> ~ (p | prod l)).
  { induction l as [|x l IH]; intros Hl.
    - simpl. intros [k Hk]. pose proof (Zprime_pos p Hprime).
      assert (k = 0 \/ k <= -1 \/ 1 <= k) as [?|[?|?]] by lia; nia.
    - simpl. fold (prod l). intros Hd.
      apply Z.divide_prime_mul in Hd; [|assumption]. destruct Hd as [Hd|Hd].
      + specialize (Hl x (or_introl eq_refl)).
        apply (mod_small_divide p x) in Hd; lia.
      + apply IH in Hd; [assumption|]. intros y Hy. apply Hl. right. assumption. }
  apply H. intros x Hx. apply in_upto. assumption.
Qed.

(** Gauss's lemma for the residue 2. *)
Lemma two_character : 2 ^ h mod p = (-1) ^ (h - h / 2) mod p.
Proof.
  pose proof h_pos as Hh. pose proof (Zprime_pos p Hprime) as Hp2.
  set (F := prod (upto h)). set (sg := (-1) ^ (h - h / 2)).
  assert (Hsg : sg * sg = 1).
  { unfold sg. rewrite <- Z.pow_add_r.
    - replace (h - h / 2 + (h - h / 2)) with (2 * (h - h / 2)) by ring.
      apply minus_one_pow_even.
      pose proof (Z.div_mod h 2 ltac:(lia)). pose proof (Z.mod_pos_bound h 2 ltac:(lia)). lia.
    - pose proof (Z.div_mod h 2 ltac:(lia)). pose proof (Z.mod_pos_bound h 2 ltac:(lia)). lia.
    - pose proof (Z.div_mod h 2 ltac:(lia)). pose proof (Z.mod_pos_bound h 2 ltac:(lia)). lia. }
  assert (Heq : F mod p = (sg * 2 ^ h * F) mod p).
  { unfold F at 1. rewrite <- (prod_perm _ _ fold_back_perm).
    rewrite (prod_scaled (fold_back p h) (fold_sign h) 2 p)
      by (intros; apply fold_back_cong).
    rewrite fold_sign_prod. unfold upto. rewrite length_range.
    rewrite Z2Nat.id by lia. reflexivity. }
  apply cong_divide in Heq.
  replace (F - sg * 2 ^ h * F) with (F * (1 - sg * 2 ^ h)) in Heq by ring.
  apply Z.divide_prime_mul in Heq; [|assumption].
  destruct Heq as [Heq|Heq]; [exfalso; apply factorial_unit; exact Heq|].
  apply cong_divide. destruct Heq as [k Hk].
  exists (- (k * sg)).
  replace (- (k * sg) * p) with (- (sg * (k * p))) by ring. rewrite <- Hk.
  replace (sg * (1 - sg * 2 ^ h)) with (sg - (sg * sg) * 2 ^ h) by ring.
  rewrite Hsg. ring.
Qed.

End CharacterOfTwo.

Lemma two_nonresidue_3mod8 p :
  Z.prime p -> p mod 8 = 3 -> 2 ^ half p mod p = p - 1.
Proof.
  intros Hp H8. unfold half. pose proof (Zprime_pos p Hp) as Hp2.
  pose proof (Z.div_mod p 8 ltac:(lia)) as Hdm. set (t := p / 8) in *.
  assert (Ht : 0 <= t) by lia.
  assert (Hh : (p - 1) / 2 = 4 * t + 1).
  { replace (p - 1) with ((4 * t + 1) * 2) by lia. apply Z.div_mul. lia. }
  rewrite Hh. rewrite (two_character p (4 * t + 1) Hp) by lia.
  replace ((4 * t + 1) / 2) with (2 * t).
  - replace (4 * t + 1 - 2 * t) with (2 * t + 1) by ring.
    rewrite minus_one_pow_odd by lia.
    rewrite <- (Z.mod_small (p - 1) p) by lia.
    apply cong_divide. exists (-1). lia.
  - apply Z.div_unique with (r := 1); lia.
Qed.

Lemma two_residue_7mod8 p :
  Z.prime p -> p mod 8 = 7 -> 2 ^ half p mod p = 1.
Proof.
  intros Hp H8. unfold half. pose proof (Zprime_pos p Hp) as Hp2.
  pose proof (Z.div_mod p 8 ltac:(lia)) as Hdm. set (t := p / 8) in *.
  assert (Ht : 0 <= t) by lia.
  assert (Hh : (p - 1) / 2 = 4 * t + 3).
  { replace (p - 1) with ((4 * t + 3) * 2) by lia. apply Z.div_mul. lia. }
  rewrite Hh. rewrite (two_character p (4 * t + 3) Hp) by lia.
  replace ((4 * t + 3) / 2) with (2 * t + 1).
  - replace (4 * t + 3 - (2 * t + 1)) with (2 * (t + 1)) by ring.
    rewrite minus_one_pow_even by lia. apply Z.mod_small. lia.
  - apply Z.div_unique with (r := 1); lia.
Qed.

(** ** Primality of small numbers by trial division *)

Lemma trial_prime_sound p : trial_prime p = true -> Z.prime p.
Proof.
  unfold trial_prime. rewrite andb_true_iff, Z.ltb_lt, forallb_forall.
  intros [Hp Hall]. split; [assumption|].
  intros d Hd Hdiv.
  assert (Hin : In d (range 2 (Z.to_nat (p - 2)))) by (apply in_range; lia).
  apply Hall in Hin. apply negb_true_iff, Z.eqb_neq in Hin.
  apply Hin. apply Z.mod_divide; [lia|assumption].
Qed.

(** ** The quadratic-residue oracle *)

(** C6: for a prime p = 3 (mod 4) and power = (p+1)/4, the oracle
    is_quadratic_residue returns, and its answer is non-zero exactly when e
    is a quadratic residue mod p; the answer is the test r*r = e (mod p)
    on r = e^power mod p. *)
Theorem is_quadratic_residue_decides (p e : Z) :
  Z.prime p -> p mod 4 = 3 ->
  let power := (p + 1) / 4 in
  let r := e ^ power mod p in
  is_quadratic_residue e p power = Ret ((r * r) mod p =? e mod p)
  /\ (((r * r) mod p =? e mod p) = true <-> QR e p).
Proof.
  intros Hp H4 power r.
  assert (Hpow : power = p1over4 p) by (symmetry; apply quarter_exact; assumption).
  unfold r. rewrite Hpow. split.
  - apply oracle_value; assumption.
  - apply (oracle_sound p Hp H4 e). apply oracle_value; assumption.
Qed.

Lemma is_quadratic_residue_decides_witness :
  is_quadratic_residue 2 7 2 = Ret true /\ (true = true <-> QR 2 7).
Proof.
  apply (is_quadratic_residue_decides 7 2).
  - apply trial_prime_sound. reflexivity.
  - reflexivity.
Defined.

(** ** The group builder and the root extractor *)

Lemma distinct_primes_coprime p q :
  Z.prime p -> Z.prime q -> p <> q -> Z.gcd p q = 1.
Proof.
  intros Hp Hq Hne. apply Z.coprime_prime_l; [assumption|].
  intros Hd. apply Hne. apply Z.divide_prime_prime; assumption.
Qed.

Lemma xgcd_bezout p q u0 v0 :
  Z.gcd p q = 1 -> xgcd p q = (u0, v0) -> u0 * p + v0 * q = 1.
Proof.
  unfold xgcd. destruct (Z.extgcd p q) as [[u1 v1] d] eqn:E.
  intros Hg [= <- <-]. apply Z.extgcd_correct in E. lia.
Qed.

Lemma group_builder_shape p q :
  Z.gcd p q = 1 ->
  exists u0 v0, u0 * p + v0 * q = 1
                /\ group_builder p q = (p * q, u0 * p, v0 * q).
Proof.
  intros Hg. unfold group_builder.
  destruct (xgcd p q) as [u0 v0] eqn:E.
  exists u0, v0. split; [|reflexivity]. apply xgcd_bezout; assumption.
Qed.

(** C5: for distinct primes p and q, the coefficients u = u0*p and
    v = v0*q built from the Bezout coefficients of the extended GCD are
    the CRT idempotents of n = p*q: (u + v) mod n = 1, u mod p = 0,
    u mod q = 1, v mod p = 1 and v mod q = 0. *)
Theorem crt_idempotents (p q : Z) :
  Z.prime p -> Z.prime q -> p <> q ->
  let '(n, u, v) := group_builder p q in
  n = p * q /\ (u + v) mod n = 1
  /\ u mod p = 0 /\ u mod q = 1 /\ v mod p = 1 /\ v mod q = 0.
Proof.
  intros Hp Hq Hne.
  pose proof (Zprime_pos p Hp) as Hp2. pose proof (Zprime_pos q Hq) as Hq2.
  destruct (group_builder_shape p q (distinct_primes_coprime p q Hp Hq Hne))
    as [u0 [v0 [Hb ->]]].
  split; [reflexivity|]. repeat split.
  - replace (u0 * p + v0 * q) with 1 by lia. apply Z.mod_small. nia.
  - apply Z.mod_mul. lia.
  - replace (u0 * p) with (1 + (- v0) * q) by lia.
    rewrite Z.mod_add by lia. apply Z.mod_small. lia.
  - replace (v0 * q) with (1 + (- u0) * p) by lia.
    rewrite Z.mod_add by lia. apply Z.mod_small. lia.
  - apply Z.mod_mul. lia.
Qed.

Lemma crt_idempotents_witness :
  let '(n, u, v) := group_builder 3 7 in
  n = 3 * 7 /\ (u + v) mod n = 1
  /\ u mod 3 = 0 /\ u mod 7 = 1 /\ v mod 3 = 1 /\ v mod 7 = 0.
Proof.
  apply (crt_idempotents 3 7).
  - apply trial_prime_sound. reflexivity.
  - apply trial_prime_sound. reflexivity.
  - lia.
Defined.

(** Two square roots, one per prime, glued by the idempotents. *)
Lemma crt_square p q u0 v0 P Q e :
  u0 * p + v0 * q = 1 ->
  (p | P * P - e) -> (q | Q * Q - e) ->
  (p * q | (P * (v0 * q) + Q * (u0 * p)) * (P * (v0 * q) + Q * (u0 * p)) - e).
Proof.
  intros Hb [k1 Hk1] [k2 Hk2].
  set (S := P * (v0 * q) + Q * (u0 * p)).
  assert (HA : exists A, S * S - e = A * p).
  { exists (k1 + 2 * P * (u0 * (Q - P)) + p * (u0 * (Q - P)) * (u0 * (Q - P))).
    unfold S. replace (v0 * q) with (1 - u0 * p) by lia.
    replace e with (P * P - k1 * p) by lia. ring. }
  assert (HB : exists B, S * S - e = B * q).
  { exists (k2 + 2 * Q * (v0 * (P - Q)) + q * (v0 * (P - Q)) * (v0 * (P - Q))).
    unfold S. replace (u0 * p) with (1 - v0 * q) by lia.
    replace e with (Q * Q - k2 * q) by lia. ring. }
  destruct HA as [A HA]. destruct HB as [B HB].
  exists (u0 * B + v0 * A).
  transitivity ((u0 * p + v0 * q) * (S * S - e)); [rewrite Hb; ring|].
  rewrite Z.mul_add_distr_r. rewrite HB at 1. rewrite HA. ring.
Qed.

Lemma powm_prime p e k :
  Z.prime p -> Mpz.powm e k p = Ret (e ^ k mod p).
Proof.
  intros Hp. pose proof (Zprime_pos p Hp). unfold Mpz.powm.
  destruct (Z.eqb_spec p 0); [lia|]. rewrite Z.abs_eq by lia. reflexivity.
Qed.

Lemma candidate_root p e :
  Z.prime p -> p mod 4 = 3 -> QR e p ->
  (p | (e ^ p1over4 p mod p) * (e ^ p1over4 p mod p) - e).
Proof.
  intros Hp H4 Hqr. pose proof (Zprime_pos p Hp).
  apply cong_divide. rewrite <- Zmult_mod.
  rewrite (candidate_square p Hp H4).
  apply (qr_euler p Hp H4) in Hqr. destruct Hqr as [H0|H1].
  - rewrite H0, Z.mul_0_r. apply Z.mod_0_l. lia.
  - rewrite H1, Z.mul_1_l. apply Z.mod_mod. lia.
Qed.

(** C1: when the tweaked e (0 <= e < n) is a quadratic residue modulo both
    primes, the root extractor returns a signature s with s*s mod n = e,
    whichever of the four roots the two random bits select. *)
Theorem signature_squares_to_e (p q e root : Z) :
  Z.prime p -> Z.prime q -> p mod 4 = 3 -> q mod 4 = 3 -> p <> q ->
  0 <= e < p * q -> QR e p -> QR e q ->
  let '(n, u, v) := group_builder p q in
  exists s, root_extract e p q u v n root = Ret s /\ (s * s) mod n = e.
Proof.
  intros Hp Hq Hp4 Hq4 Hne He Hqp Hqq.
  pose proof (Zprime_pos p Hp) as Hp2. pose proof (Zprime_pos q Hq) as Hq2.
  destruct (group_builder_shape p q (distinct_primes_coprime p q Hp Hq Hne))
    as [u0 [v0 [Hb ->]]].
  unfold root_extract. rewrite !powm_prime by assumption. cbn [bind].
  set (P := e ^ p1over4 p mod p). set (Q := e ^ p1over4 q mod q).
  set (P' := if negb (Z.land root 1 =? 0) then - P else P).
  set (Q' := if negb (Z.land root 2 =? 0) then - Q else Q).
  assert (HP : (p | P' * P' - e)).
  { replace (P' * P') with (P * P)
      by (unfold P'; destruct (negb (Z.land root 1 =? 0)); ring).
    apply candidate_root; assumption. }
  assert (HQ : (q | Q' * Q' - e)).
  { replace (Q' * Q') with (Q * Q)
      by (unfold Q'; destruct (negb (Z.land root 2 =? 0)); ring).
    apply candidate_root; assumption. }
  unfold Mpz.mod_. destruct (Z.eqb_spec (p * q) 0); [nia|].
  rewrite Z.abs_eq by nia.
  eexists. split; [reflexivity|].
  rewrite <- Zmult_mod.
  transitivity (e mod (p * q)); [|apply Z.mod_small; lia].
  apply cong_divide. apply crt_square; assumption.
Qed.

Lemma signature_squares_to_e_witness :
  let '(n, u, v) := group_builder 3 7 in
  exists s, root_extract 4 3 7 u v n 2 = Ret s /\ (s * s) mod n = 4.
Proof.
  apply (signature_squares_to_e 3 7 4 2).
  - apply trial_prime_sound. reflexivity.
  - apply trial_prime_sound. reflexivity.
  - reflexivity.
  - reflexivity.
  - lia.
  - lia.
  - exists 1. reflexivity.
  - exists 2. reflexivity.
Defined.

(** ** The residue tweak *)

Lemma mod8_mod4 p : p mod 8 = 3 \/ p mod 8 = 7 -> p mod 4 = 3.
Proof.
  intros H. pose proof (Z.div_mod p 8 ltac:(lia)) as H8.
  symmetry. apply (Z.mod_unique p 4 (2 * (p / 8) + (p mod 8) / 4)).
  - left. lia.
  - destruct H as [H|H]; rewrite H in *; [change (3 / 4) with 0|change (7 / 4) with 1]; lia.
Qed.

Lemma minus_two_residue_3mod8 p :
  Z.prime p -> p mod 8 = 3 -> (-2) ^ half p mod p = 1.
Proof.
  intros Hp H8. assert (H4 : p mod 4 = 3) by (apply mod8_mod4; tauto).
  change (-2) with (-1 * 2). rewrite pow_mod_mul.
  rewrite (euler_minus_one p Hp H4), (two_nonresidue_3mod8 p Hp H8).
  apply minus_one_squared. assumption.
Qed.

Lemma minus_two_nonresidue_7mod8 q :
  Z.prime q -> q mod 8 = 7 -> (-2) ^ half q mod q = q - 1.
Proof.
  intros Hq H8. assert (H4 : q mod 4 = 3) by (apply mod8_mod4; tauto).
  pose proof (Zprime_pos q Hq).
  change (-2) with (-1 * 2). rewrite pow_mod_mul.
  rewrite (euler_minus_one q Hq H4), (two_residue_7mod8 q Hq H8).
  rewrite Z.mul_1_r. apply Z.mod_small. lia.
Qed.

Lemma qr_reduced p q x :
  QR x p -> QR x q -> QR (x mod (p * q)) p /\ QR (x mod (p * q)) q.
Proof.
  intros Hxp Hxq. split.
  - apply qr_mod_multiple. assumption.
  - rewrite (Z.mul_comm p q). apply qr_mod_multiple. assumption.
Qed.

Lemma not_true_iff_not (b : bool) (P : Prop) :
  (b = true <-> P) -> b = false -> ~ P.
Proof. intros H Hb HP. apply H in HP. congruence. Qed.

(** C4: with p = 3 (mod 8) and q = 7 (mod 8) prime, whatever the residue
    pair (a, b) the oracle reports for e, the tweak (double when a xor b,
    negate when the updated a is false, reduce mod n when anything was
    applied) returns the element (+-1)*(1 or 2)*e so transformed, and that
    element is a quadratic residue modulo p and modulo q. *)
Theorem residue_tweak_postcondition (p q e : Z) (a b : bool) :
  Z.prime p -> Z.prime q -> p mod 8 = 3 -> q mod 8 = 7 ->
  is_quadratic_residue e p (p1over4 p) = Ret a ->
  is_quadratic_residue e q (p1over4 q) = Ret b ->
  let mul_2 := xorb a b in
  let negate := negb (if mul_2 then negb a else a) in
  exists e',
    residue_tweak e p q (p * q) = Ret (e', mul_2, negate)
    /\ e' = (if negate || mul_2
             then ((if negate then -1 else 1) * (if mul_2 then 2 else 1) * e)
                  mod (p * q)
             else e)
    /\ QR e' p /\ QR e' q.
Proof.
  intros Hp Hq Hp8 Hq8 Ha Hb.
  assert (Hp4 : p mod 4 = 3) by (apply mod8_mod4; tauto).
  assert (Hq4 : q mod 4 = 3) by (apply mod8_mod4; tauto).
  pose proof (Zprime_pos p Hp) as Hp2. pose proof (Zprime_pos q Hq) as Hq2.
  pose proof (oracle_sound p Hp Hp4 e a Ha) as Hqa.
  pose proof (oracle_sound q Hq Hq4 e b Hb) as Hqb.
  unfold residue_tweak. rewrite Ha, Hb. cbn [bind].
  assert (Hn : (p * q =? 0) = false) by (apply Z.eqb_neq; nia).
  assert (Habs : Z.abs (p * q) = p * q) by (apply Z.abs_eq; nia).
  destruct a, b; cbn [tweak_flags apply_tweak xorb negb orb];
    unfold Mpz.mod_; rewrite ?Hn, ?Habs; cbn [bind];
    eexists; (split; [reflexivity|]).
  - (* both residues: untouched *)
    split; [reflexivity|]. split; [apply Hqa|apply Hqb]; reflexivity.
  - (* residue mod p only: doubled and negated *)
    replace (- e * 2) with (-2 * e) by ring.
    split; [f_equal; ring|]. apply qr_reduced.
    + apply qr_scale; try assumption.
      * apply minus_two_residue_3mod8; assumption.
      * apply Hqa. reflexivity.
    + apply nonresidue_scale; try assumption.
      * apply minus_two_nonresidue_7mod8; assumption.
      * apply (not_true_iff_not _ _ Hqb). reflexivity.
  - (* residue mod q only: doubled *)
    replace (e * 2) with (2 * e) by ring.
    split; [f_equal; ring|]. apply qr_reduced.
    + apply nonresidue_scale; try assumption.
      * apply two_nonresidue_3mod8; assumption.
      * apply (not_true_iff_not _ _ Hqa). reflexivity.
    + apply qr_scale; try assumption.
      * apply two_residue_7mod8; assumption.
      * apply Hqb. reflexivity.
  - (* residue mod neither: negated *)
    replace (- e) with (-1 * e) by ring.
    split; [f_equal; ring|]. apply qr_reduced.
    + apply nonresidue_scale; try assumption.
      * apply euler_minus_one; assumption.
      * apply (not_true_iff_not _ _ Hqa). reflexivity.
    + apply nonresidue_scale; try assumption.
      * apply euler_minus_one; assumption.
      * apply (not_true_iff_not _ _ Hqb). reflexivity.
Qed.

Lemma residue_tweak_postcondition_witness :
  exists e',
    residue_tweak 2 3 7 (3 * 7) = Ret (e', true, false)
    /\ e' = (if false || true
             then ((if false then -1 else 1) * (if true then 2 else 1) * 2)
                  mod (3 * 7)
             else 2)
    /\ QR e' 3 /\ QR e' 7.
Proof.
  apply (residue_tweak_postcondition 3 7 2 false true).
  - apply trial_prime_sound. reflexivity.
  - apply trial_prime_sound. reflexivity.
  - reflexivity.
  - reflexivity.
  - reflexivity.
  - reflexivity.
Defined.

(** ** The continued-fraction loop of signature_compress *)

Lemma index_cases i : 0 <= i <= 3 -> i = 0 \/ i = 1 \/ i = 2 \/ i = 3.
Proof. lia. Qed.

Lemma cf_step_zero st :
  0 <= cf_i st <= 3 -> small st = 0 -> cf_step st = DivideByZero.
Proof.
  destruct st as [vs s n i]. unfold small, odd_index. cbn [cf_i cf_s cf_n].
  intros Hi H0. apply index_cases in Hi.
  destruct Hi as [->|[->|[->| ->]]]; cbn in H0; subst;
    unfold cf_step, Mpz.fdiv_qr; cbn [cf_i cf_s cf_n cf_vs];
    reflexivity.
Qed.

Lemma cf_step_ret st :
  0 <= cf_i st <= 3 -> small st <> 0 ->
  exists st',
    cf_step st = Ret st'
    /\ 0 <= cf_i st' <= 3
    /\ odd_index st' = negb (odd_index st)
    /\ big st' = small st
    /\ small st' = big st mod small st
    /\ cur st' = cur st * (big st / small st) + prev st
    /\ prev st' = cur st
    /\ (odd_index st = true -> cf_s st' = cf_s st).
Proof.
  destruct st as [vs s n i]. unfold small, big, cur, prev, odd_index.
  cbn [cf_i cf_s cf_n cf_vs].
  intros Hi H0. apply index_cases in Hi.
  destruct Hi as [->|[->|[->| ->]]]; cbn in H0;
    unfold cf_step, Mpz.fdiv_qr; cbn [cf_i cf_s cf_n cf_vs];
    match goal with
    | |- context [Z.land (u32 (?a + 1)) 3] =>
        let v := eval vm_compute in (Z.land (u32 (a + 1)) 3) in
        change (Z.land (u32 (a + 1)) 3) with v
    end;
    cbn [Z.land Pos.land negb Z.eqb Pos.eqb];
    apply Z.eqb_neq in H0; rewrite H0; cbn [bind];
    eexists; (split; [reflexivity|]); cbn [cf_i cf_s cf_n cf_vs];
    unfold upd; cbn; repeat split; try lia; try ring; try discriminate.
Qed.

Lemma cf_inv_init N0 S0 : 0 < S0 < N0 -> cf_inv N0 S0 (cf_init S0 N0).
Proof.
  intros H.
  assert (Hc : cur (cf_init S0 N0) = 1) by reflexivity.
  assert (Hp : prev (cf_init S0 N0) = 0) by reflexivity.
  assert (Hb : big (cf_init S0 N0) = N0) by reflexivity.
  assert (Hs : small (cf_init S0 N0) = S0) by reflexivity.
  constructor; rewrite ?Hc, ?Hp, ?Hb, ?Hs; cbn [cf_init cf_i cf_s cf_n]; try lia.
  - apply Z.gcd_comm.
  - exists 1. split; [tauto|]. split; [exists 0|exists 1]; ring.
Qed.

Lemma operands_cases st :
  (odd_index st = true /\ big st = cf_n st /\ small st = cf_s st)
  \/ (odd_index st = false /\ big st = cf_s st /\ small st = cf_n st).
Proof. unfold big, small. destruct (odd_index st); tauto. Qed.

Lemma cf_inv_step N0 S0 st :
  cf_inv N0 S0 st -> small st <> 0 ->
  exists st',
    cf_step st = Ret st' /\ cf_inv N0 S0 st'
    /\ small st' < small st /\ prev st' = cur st
    /\ cf_s st' <= small st /\ cf_n st' <= small st
    /\ cur st' = cur st * (big st / small st) + prev st
    /\ (odd_index st = true -> cf_s st' = cf_s st /\ cf_n st' = small st').
Proof.
  intros [Hi Hp Hsp Hg Hpv Hc Hs Hn [sg [Hsg [Hd1 Hd2]]]] H0.
  destruct (cf_step_ret st Hi H0)
    as [st' [Hst [Hi' [Hodd [Hb [Hsm [Hcur [Hprev Hkeep]]]]]]]].
  exists st'. split; [assumption|].
  assert (Hpos : 0 < small st) by lia.
  pose proof (Z.mod_pos_bound (big st) (small st) Hpos) as Hmod.
  pose proof (Z.div_mod (big st) (small st) H0) as Hdm.
  assert (Hq : 1 <= big st / small st).
  { apply Z.div_le_lower_bound; lia. }
  assert (Hsn : cf_s st' <= small st /\ cf_n st' <= small st
                /\ 0 <= cf_s st' <= S0 /\ 0 <= cf_n st' <= N0).
  { destruct (operands_cases st) as [[Ho [Eb Es]]|[Ho [Eb Es]]];
      destruct (operands_cases st') as [[Ho' [Eb' Es']]|[Ho' [Eb' Es']]];
      rewrite Ho, Ho' in Hodd; try discriminate; lia. }
  split;
    [|split; [lia|split; [assumption|split; [lia|split; [lia|split; [assumption|]]]]]].
  2:{ intros Ho. split; [apply Hkeep; exact Ho|].
      unfold small. rewrite Hodd, Ho. reflexivity. }
  constructor.
  - assumption.
  - rewrite Hb, Hsm. lia.
  - rewrite Hcur, Hprev, Hb, Hsm. rewrite <- Hsp. rewrite Hdm at 3. ring.
  - rewrite Hb, Hsm, Z.gcd_comm, Z.gcd_mod by assumption.
    rewrite Z.gcd_comm. assumption.
  - rewrite Hprev. lia.
  - rewrite Hcur. nia.
  - tauto.
  - tauto.
  - exists (- sg). split; [lia|]. rewrite Hcur, Hprev, Hb, Hsm. split.
    + replace ((cur st * (big st / small st) + prev st) * S0
               - - sg * (big st mod small st))
        with ((big st / small st) * (cur st * S0 - sg * small st)
              + (prev st * S0 + sg * big st)) by lia.
      apply Z.divide_add_r; [apply Z.divide_mul_r|]; assumption.
    + replace (cur st * S0 + - sg * small st)
        with (cur st * S0 - sg * small st) by ring.
      assumption.
Qed.

(** With the divisor exhausted, the newest convergent is N0 / gcd. *)
Lemma cf_inv_exhausted N0 S0 st :
  cf_inv N0 S0 st -> small st = 0 -> cur st = N0 / Z.gcd S0 N0.
Proof.
  intros [Hi Hp Hsp Hg Hpv Hc Hs Hn _] H0.
  rewrite H0 in *. rewrite Z.gcd_0_r, Z.abs_eq in Hg by lia.
  rewrite <- Hg. rewrite <- Hsp. rewrite Z.mul_0_r, Z.add_0_r.
  symmetry. apply Z.div_mul. lia.
Qed.

Lemma cf_loop_total N0 S0 root :
  root <= N0 / Z.gcd S0 N0 ->
  forall fuel st,
    cf_inv N0 S0 st -> cur st < root -> (Z.to_nat (small st) < fuel)%nat ->
    exists st',
      cf_loop fuel root st = Ret st' /\ cf_inv N0 S0 st'
      /\ root <= cur st' /\ 1 <= prev st' < root
      /\ cf_s st' <= small st /\ cf_n st' <= small st.
Proof.
  intros Hroot. induction fuel as [|fuel IH]; intros st Hinv Hcur Hfuel; [lia|].
  assert (H0 : small st <> 0).
  { intros H0. pose proof (cf_inv_exhausted N0 S0 st Hinv H0). lia. }
  destruct (cf_inv_step N0 S0 st Hinv H0)
    as [st1 [Hst [Hinv1 [Hdec [Hprev [Hs1 [Hn1 _]]]]]]].
  cbn [cf_loop]. rewrite Hst. cbn [bind]. fold (cur st1).
  destruct (Z.ltb_spec (cur st1) root) as [Hlt|Hge].
  - pose proof (inv_pair _ _ _ Hinv1) as Hp1.
    pose proof (inv_pair _ _ _ Hinv) as Hp0.
    assert (Hf : (Z.to_nat (small st1) < fuel)%nat) by lia.
    destruct (IH st1 Hinv1 Hlt Hf)
      as [st' [Hl [Hinv' [Hc' [Hp' [Hs' Hn']]]]]].
    exists st'. split; [assumption|]. split; [assumption|]. lia.
  - pose proof (inv_cur _ _ _ Hinv).
    exists st1. split; [reflexivity|]. split; [assumption|]. lia.
Qed.

Lemma cf_loop_unfold fuel root st :
  cf_loop (S fuel) root st
  = (st' <- cf_step st ;;
     if cur st' <? root then cf_loop fuel root st' else Ret st').
Proof. reflexivity. Qed.

(** The whole loop, from the state signature_compress sets up. *)
Lemma compress_total N0 S0 fuel :
  0 < S0 < N0 -> Z.sqrt N0 <= N0 / Z.gcd S0 N0 -> (Z.to_nat S0 < fuel)%nat ->
  exists st,
    cf_loop fuel (Z.sqrt N0) (cf_init S0 N0) = Ret st
    /\ cf_inv N0 S0 st
    /\ Z.sqrt N0 <= cur st
    /\ ((N0 / S0 < Z.sqrt N0 /\ 1 <= prev st < Z.sqrt N0 /\ cf_s st < S0)
        \/ (Z.sqrt N0 <= N0 / S0 /\ prev st = 1 /\ cf_s st = S0))
    /\ cf_n st < S0.
Proof.
  intros Hs Hroot Hfuel. destruct fuel as [|fuel]; [lia|].
  pose proof (cf_inv_init N0 S0 Hs) as Hinv.
  assert (Hsm : small (cf_init S0 N0) = S0) by reflexivity.
  assert (Hbg : big (cf_init S0 N0) = N0) by reflexivity.
  assert (Hc0 : cur (cf_init S0 N0) = 1) by reflexivity.
  assert (Hp0 : prev (cf_init S0 N0) = 0) by reflexivity.
  assert (Ho0 : odd_index (cf_init S0 N0) = true) by reflexivity.
  destruct (cf_inv_step N0 S0 _ Hinv ltac:(rewrite Hsm; lia))
    as [st1 [Hst [Hinv1 [Hdec [Hprev [Hs1 [Hn1 [Hcur Hkeep]]]]]]]].
  destruct (Hkeep Ho0) as [Hks Hkn]. cbn [cf_init cf_s] in Hks.
  rewrite Hsm, ?Hbg, ?Hc0, ?Hp0 in *.
  assert (Hcur1 : cur st1 = N0 / S0) by lia.
  rewrite cf_loop_unfold, Hst. cbn [bind].
  destruct (Z.ltb_spec (cur st1) (Z.sqrt N0)) as [Hlt|Hge].
  - pose proof (inv_pair _ _ _ Hinv1) as Hp1.
    assert (Hf : (Z.to_nat (small st1) < fuel)%nat) by lia.
    destruct (cf_loop_total N0 S0 (Z.sqrt N0) Hroot fuel st1 Hinv1 Hlt Hf)
      as [st' [Hl [Hinv' [Hc' [Hp' [Hs' Hn']]]]]].
    exists st'. split; [assumption|]. split; [assumption|].
    split; [assumption|]. split; [left|]; lia.
  - exists st1. split; [reflexivity|]. split; [assumption|].
    split; [lia|]. split; [right|]; lia.
Qed.

(** Partial correctness needs no invariant beyond the index range. *)
Lemma cf_loop_lag root :
  forall fuel st st',
    0 <= cf_i st <= 3 -> cur st < root ->
    cf_loop fuel root st = Ret st' ->
    prev st' < root <= cur st'.
Proof.
  induction fuel as [|fuel IH]; intros st st' Hi Hcur Hrun; [discriminate|].
  rewrite cf_loop_unfold in Hrun.
  destruct (Z.eq_dec (small st) 0) as [H0|H0].
  - rewrite (cf_step_zero st Hi H0) in Hrun. discriminate.
  - destruct (cf_step_ret st Hi H0) as [st1 [Hst [Hi1 [_ [_ [_ [_ [Hprev _]]]]]]]].
    rewrite Hst in Hrun. cbn [bind] in Hrun.
    destruct (Z.ltb_spec (cur st1) root) as [Hlt|Hge].
    + apply (IH st1 st' Hi1 Hlt Hrun).
    + injection Hrun as <-. lia.
Qed.

(** No convergent exceeds N0 / gcd. *)
Lemma cf_inv_cur_bound N0 S0 st :
  cf_inv N0 S0 st -> cur st <= N0 / Z.gcd S0 N0.
Proof.
  intros [Hi Hp Hsp Hg Hpv Hc Hs Hn _].
  pose proof (Z.gcd_divide_l (big st) (small st)) as [k Hk].
  pose proof (Z.gcd_nonneg (big st) (small st)) as Hnn.
  rewrite Hg in *. set (g := Z.gcd S0 N0) in *.
  assert (Hgpos : 0 < g).
  { destruct (Z.eq_dec g 0) as [Hz|Hz]; [rewrite Hz in Hk; lia|lia]. }
  assert (Hk1 : 1 <= k) by nia.
  assert (Hle : g <= big st) by nia.
  apply Z.div_le_lower_bound; [assumption|]. nia.
Qed.

(** When N0 / gcd stays below the root, the loop can only end on the
    zero divisor. *)
Lemma cf_loop_traps N0 S0 root :
  N0 / Z.gcd S0 N0 < root ->
  forall fuel st,
    cf_inv N0 S0 st -> (Z.to_nat (small st) < fuel)%nat ->
    cf_loop fuel root st = DivideByZero.
Proof.
  intros Hroot. induction fuel as [|fuel IH]; intros st Hinv Hfuel; [lia|].
  rewrite cf_loop_unfold.
  destruct (Z.eq_dec (small st) 0) as [H0|H0].
  - rewrite (cf_step_zero st (inv_index _ _ _ Hinv) H0). reflexivity.
  - destruct (cf_inv_step N0 S0 st Hinv H0) as [st1 [Hst [Hinv1 [Hdec _]]]].
    rewrite Hst. cbn [bind].
    pose proof (cf_inv_cur_bound N0 S0 st1 Hinv1) as Hb.
    pose proof (inv_pair _ _ _ Hinv1) as Hp1.
    destruct (Z.ltb_spec (cur st1) root) as [_|Hge]; [|lia].
    apply IH; [assumption|lia].
Qed.

Lemma sqrt_ge_2 n : 4 <= n -> 2 <= Z.sqrt n.
Proof.
  intros H. change 2 with (Z.sqrt 4). apply Z.sqrt_le_mono. assumption.
Qed.

Lemma signature_compress_unfold fuel s n :
  signature_compress fuel s n
  = (st <- cf_loop fuel (Z.sqrt n) (cf_init s n) ;;
     Ret (mkCompressed (prev st) (cf_s st) (cf_n st))).
Proof. reflexivity. Qed.

(** C3, as amended: for n >= 4 every zsig that signature_compress returns
    is strictly below isqrt(n), whatever s is; and for 0 < s < n with
    isqrt(n) <= n / gcd(s, n) it does return, the loop having stopped at
    the first convergent that reaches isqrt(n) and handed back the one in
    the previous slot. *)
Theorem zsig_below_root (s n : Z) (fuel : nat) :
  4 <= n ->
  (forall c, signature_compress fuel s n = Ret c -> zsig c < Z.sqrt n)
  /\ (0 < s < n -> Z.sqrt n <= n / Z.gcd s n -> (Z.to_nat s < fuel)%nat ->
      exists st,
        cf_loop fuel (Z.sqrt n) (cf_init s n) = Ret st
        /\ signature_compress fuel s n
           = Ret (mkCompressed (prev st) (cf_s st) (cf_n st))
        /\ 1 <= prev st < Z.sqrt n /\ Z.sqrt n <= cur st).
Proof.
  intros Hn. pose proof (sqrt_ge_2 n Hn) as Hroot. split.
  - intros c. rewrite signature_compress_unfold.
    destruct (cf_loop fuel (Z.sqrt n) (cf_init s n)) as [st| | |] eqn:Hrun;
      try discriminate.
    cbn [bind]. intros [= <-]. cbn [zsig].
    apply (cf_loop_lag (Z.sqrt n) fuel (cf_init s n) st); try assumption.
    + cbn. lia.
    + change (cur (cf_init s n)) with 1. lia.
  - intros Hs Hg Hfuel.
    destruct (compress_total n s fuel Hs Hg Hfuel)
      as [st [Hrun [Hinv [Hcur [Hcase Hna]]]]].
    exists st. split; [assumption|]. split.
    + rewrite signature_compress_unfold, Hrun. reflexivity.
    + destruct Hcase as [[Hq [Hpv Hsa]]|[Hq [Hpv Hsa]]]; lia.
Qed.

Lemma zsig_below_root_witness :
  exists st,
    cf_loop 9 (Z.sqrt 21) (cf_init 8 21) = Ret st
    /\ signature_compress 9 8 21
       = Ret (mkCompressed (prev st) (cf_s st) (cf_n st))
    /\ 1 <= prev st < Z.sqrt 21 /\ Z.sqrt 21 <= cur st.
Proof.
  apply (zsig_below_root 8 21 9); [lia|lia| |vm_compute; lia].
  vm_compute. discriminate.
Defined.

(** The bound of C3 fails below n = 4: with n = 3 and s = 1 the first
    convergent already reaches isqrt(3) = 1 and the zsig returned is 1. *)
Lemma zsig_not_below_root_small_n :
  1 < 3 /\ exists c, signature_compress 2 1 3 = Ret c /\ ~ zsig c < Z.sqrt 3.
Proof.
  split; [lia|]. eexists. split; [reflexivity|]. cbn. lia.
Qed.

(** C10, as amended: for 0 < s < n the loop exits, within s + 1 passes
    and with a convergent that has reached isqrt(n), exactly when
    isqrt(n) <= n / gcd(s, n), as whenever s and n are coprime; otherwise
    no convergent reaches isqrt(n) and the loop ends on a division by
    zero, as does the first pass when s = 0. *)
Theorem compress_loop_terminates (s n : Z) (fuel : nat) :
  0 < s < n -> (Z.to_nat s < fuel)%nat ->
  (Z.sqrt n <= n / Z.gcd s n ->
   exists st c,
     cf_loop fuel (Z.sqrt n) (cf_init s n) = Ret st
     /\ Z.sqrt n <= cur st
     /\ signature_compress fuel s n = Ret c)
  /\ (n / Z.gcd s n < Z.sqrt n ->
      signature_compress fuel s n = DivideByZero)
  /\ signature_compress fuel 0 n = DivideByZero.
Proof.
  intros Hs Hfuel. split; [|split].
  - intros Hg.
    destruct (compress_total n s fuel Hs Hg Hfuel)
      as [st [Hrun [Hinv [Hcur _]]]].
    exists st. eexists. split; [assumption|]. split; [assumption|].
    rewrite signature_compress_unfold, Hrun. reflexivity.
  - intros Hg. rewrite signature_compress_unfold.
    rewrite (cf_loop_traps n s (Z.sqrt n) Hg fuel (cf_init s n));
      [reflexivity|apply cf_inv_init; assumption|exact Hfuel].
  - destruct fuel as [|fuel]; [lia|].
    rewrite signature_compress_unfold, cf_loop_unfold.
    rewrite (cf_step_zero (cf_init 0 n)); [reflexivity|cbn; lia|reflexivity].
Qed.

Lemma compress_loop_terminates_witness :
  (Z.sqrt 21 <= 21 / Z.gcd 8 21 ->
   exists st c,
     cf_loop 9 (Z.sqrt 21) (cf_init 8 21) = Ret st
     /\ Z.sqrt 21 <= cur st
     /\ signature_compress 9 8 21 = Ret c)
  /\ (21 / Z.gcd 8 21 < Z.sqrt 21 ->
      signature_compress 9 8 21 = DivideByZero)
  /\ signature_compress 9 0 21 = DivideByZero.
Proof.
  apply (compress_loop_terminates 8 21 9); [lia|vm_compute; lia].
Defined.

(** C10 as stated fails: 0 < 8 < 16, and the loop started on (8, 16)
    never exits; its second pass divides by zero. *)
Lemma compress_loop_divides_by_zero :
  0 < 8 < 16 /\ forall fuel c, signature_compress fuel 8 16 <> Ret c.
Proof.
  split; [lia|]. intros [|[|fuel]] c; discriminate.
Qed.

(** C8, as amended: signature_compress overwrites both of its arguments.
    On return n holds a remainder below s, and s itself is unchanged only
    when the loop stops after its first pass (isqrt(n) <= n / s); in every
    longer run s holds a smaller remainder. *)
Theorem signature_compress_overwrites (s n : Z) (fuel : nat) :
  0 < s < n -> Z.sqrt n <= n / Z.gcd s n -> (Z.to_nat s < fuel)%nat ->
  exists c,
    signature_compress fuel s n = Ret c
    /\ 0 <= n_after c < s
    /\ (n / s < Z.sqrt n -> 0 <= s_after c < s)
    /\ (Z.sqrt n <= n / s -> s_after c = s).
Proof.
  intros Hs Hg Hfuel.
  destruct (compress_total n s fuel Hs Hg Hfuel)
    as [st [Hrun [Hinv [Hcur [Hcase Hna]]]]].
  pose proof (inv_s _ _ _ Hinv) as Hsr. pose proof (inv_n _ _ _ Hinv) as Hnr.
  eexists. split; [rewrite signature_compress_unfold, Hrun; reflexivity|].
  cbn [n_after s_after]. split; [lia|].
  destruct Hcase as [[Hq [Hpv Hsa]]|[Hq [Hpv Hsa]]]; split; intros; lia.
Qed.

Lemma signature_compress_overwrites_witness :
  exists c,
    signature_compress 9 8 21 = Ret c
    /\ 0 <= n_after c < 8
    /\ (21 / 8 < Z.sqrt 21 -> 0 <= s_after c < 8)
    /\ (Z.sqrt 21 <= 21 / 8 -> s_after c = 8).
Proof.
  apply (signature_compress_overwrites 8 21 9); [lia| |vm_compute; lia].
  vm_compute. discriminate.
Defined.

(** ** The prime generator *)

Lemma low_bits_value n (b1 b2 : bool) :
  Z.land
    ((if b2 then Z.setbit else Z.clearbit)
       ((if b1 then Z.setbit else Z.clearbit) (Z.setbit n 0) 1) 2) 7
  = 1 + (if b1 then 2 else 0) + (if b2 then 4 else 0).
Proof.
  apply Z.bits_inj'. intros k Hk. rewrite Z.land_spec.
  assert (Hcases : k = 0 \/ k = 1 \/ k = 2 \/ 3 <= k) by lia.
  destruct Hcases as [->|[->|[->|Hk3]]].
  - destruct b1, b2;
      rewrite ?Z.setbit_eqb, ?Z.clearbit_eqb, ?Z.setbit_eqb by lia; reflexivity.
  - destruct b1, b2;
      rewrite ?Z.setbit_eqb, ?Z.clearbit_eqb, ?Z.setbit_eqb by lia;
      cbn; rewrite ?andb_false_r, ?andb_true_r, ?orb_true_r; reflexivity.
  - destruct b1, b2;
      rewrite ?Z.setbit_eqb, ?Z.clearbit_eqb, ?Z.setbit_eqb by lia;
      cbn; rewrite ?andb_false_r, ?andb_true_r, ?orb_true_r; reflexivity.
  - rewrite (Z.bits_above_log2 7 k) by (cbn; lia).
    rewrite andb_false_r. symmetry.
    destruct b1, b2; apply Z.bits_above_log2; cbn; lia.
Qed.

Lemma force_low_bits_mod8 n mod8 :
  0 <= mod8 <= 7 -> force_low_bits n mod8 mod 8 = Z.lor mod8 1.
Proof.
  intros Hm. change 8 with (2 ^ 3). rewrite <- Z.land_ones by lia.
  change (Z.ones 3) with 7. unfold force_low_bits, Mpz.setbit, Mpz.clrbit.
  assert (Hc : mod8 = 0 \/ mod8 = 1 \/ mod8 = 2 \/ mod8 = 3 \/ mod8 = 4
               \/ mod8 = 5 \/ mod8 = 6 \/ mod8 = 7) by lia.
  destruct Hc as [->|[->|[->|[->|[->|[->|[->| ->]]]]]]]; cbn [Z.land Pos.land Z.eqb negb Z.lor Pos.lor Pos.succ].
  - apply (low_bits_value n false false).
  - apply (low_bits_value n false false).
  - apply (low_bits_value n true false).
  - apply (low_bits_value n true false).
  - apply (low_bits_value n false true).
  - apply (low_bits_value n false true).
  - apply (low_bits_value n true true).
  - apply (low_bits_value n true true).
Qed.

Lemma random_prime_loop_accepts test bytes mod8 :
  forall fuel src n src',
    random_prime_loop test fuel src bytes mod8 = Ret (n, src') ->
    (exists n0, n = force_low_bits n0 mod8) /\ test n 10 <> 0.
Proof.
  induction fuel as [|fuel IH]; intros src n src' Hrun; [discriminate|].
  cbn [random_prime_loop] in Hrun.
  destruct (read_retry src bytes) as [r src1].
  destruct (negb (rd_ret r =? bytes)); [discriminate|].
  destruct (Z.eqb_spec (test (force_low_bits (Mpz.import (rd_data r)) mod8) 10) 0)
    as [Hz|Hnz]; cbn [negb] in Hrun.
  - apply (IH _ _ _ Hrun).
  - injection Hrun as <- <-. split; [eexists; reflexivity|assumption].
Qed.

Lemma random_prime_loop_first test fuel data rest bytes mod8 :
  Z.of_nat (length data) = bytes ->
  test (force_low_bits (Mpz.import data) mod8) 10 <> 0 ->
  random_prime_loop test (S fuel) (Delivers data :: rest) bytes mod8
  = Ret (force_low_bits (Mpz.import data) mod8, rest).
Proof.
  intros Hlen Htest. cbn [random_prime_loop read_retry sys_read rd_ret rd_eintr].
  assert (Hall : firstn (Z.to_nat bytes) data = data).
  { apply firstn_all2. lia. }
  rewrite Hall, andb_false_r. cbn [rd_ret rd_data].
  rewrite Hlen, Z.eqb_refl. cbn [negb].
  apply Z.eqb_neq in Htest. rewrite Htest. reflexivity.
Qed.

(** C7, as amended: for mod8 in 0..7, the number init_random_prime accepts
    passed the primality test, is odd, and is congruent to (mod8 | 1)
    modulo 8, bit 0 being forced; that is mod8 itself exactly when mod8
    is odd.  It accepts the first candidate that passes the test. *)
Theorem init_random_prime_postcondition
    (test : Z -> Z -> Z) (fuel : nat) (src : source) (size mod8 : Z) :
  0 <= mod8 <= 7 ->
  (forall n src',
      init_random_prime test fuel src size mod8 = Ret (n, src') ->
      test n 10 <> 0
      /\ Z.odd n = true
      /\ n mod 8 = Z.lor mod8 1
      /\ (Z.odd mod8 = true -> n mod 8 = mod8))
  /\ (forall data,
        Z.of_nat (length data) = Z.shiftr size 3 ->
        Z.shiftr size 3 <= sizeof_buffer ->
        test (force_low_bits (Mpz.import data) mod8) 10 <> 0 ->
        init_random_prime test (S fuel) (Delivers data :: src) size mod8
        = Ret (force_low_bits (Mpz.import data) mod8, src)).
Proof.
  intros Hm. split.
  - intros n src' Hrun. unfold init_random_prime in Hrun.
    destruct (Z.shiftr size 3 >? sizeof_buffer); [discriminate|].
    apply random_prime_loop_accepts in Hrun. destruct Hrun as [[n0 ->] Htest].
    pose proof (force_low_bits_mod8 n0 mod8 Hm) as H8.
    split; [assumption|]. split; [|split; [assumption|]].
    + rewrite <- Z.bit0_odd. rewrite <- (Z.mod_pow2_bits_low _ 3) by lia.
      change (2 ^ 3) with 8. rewrite H8, Z.lor_spec. apply orb_true_r.
    + intros Hodd. rewrite H8.
      assert (Hc : mod8 = 0 \/ mod8 = 1 \/ mod8 = 2 \/ mod8 = 3 \/ mod8 = 4
                   \/ mod8 = 5 \/ mod8 = 6 \/ mod8 = 7) by lia.
      destruct Hc as [->|[->|[->|[->|[->|[->|[->| ->]]]]]]];
        try discriminate; reflexivity.
  - intros data Hlen Hsize Htest. unfold init_random_prime.
    destruct (Z.gtb_spec (Z.shiftr size 3) sizeof_buffer) as [Hgt|_]; [lia|].
    apply random_prime_loop_first; assumption.
Qed.

Lemma init_random_prime_postcondition_witness :
  trial_probab_prime_p 31 10 <> 0
  /\ Z.odd 31 = true /\ 31 mod 8 = Z.lor 7 1 /\ (Z.odd 7 = true -> 31 mod 8 = 7).
Proof.
  assert (Hm : 0 <= 7 <= 7) by lia.
  apply (proj1 (init_random_prime_postcondition trial_probab_prime_p 1
                  [Delivers (zeros 63 ++ [Byte.x1f])] 512 7 Hm) 31 []).
  vm_compute. reflexivity.
Defined.

(** The request mod8 = 2 is answered by 3, which is 3 modulo 8. *)
Lemma init_random_prime_even_request :
  0 <= 2 <= 7
  /\ exists n src',
      init_random_prime trial_probab_prime_p 1 [Delivers [Byte.x00]] 8 2
      = Ret (n, src')
      /\ trial_probab_prime_p n 10 <> 0 /\ n mod 8 <> 2.
Proof.
  split; [lia|]. exists 3, []. split; [reflexivity|]. split; discriminate.
Qed.

(** ** Runs of the whole program *)

(** The signature that main prints is not the value left in proot after
    compression: on this run 64 has become 6. *)
Lemma pipeline_signature_overwritten :
  exists r,
    pipeline trial_probab_prime_p 64 Byte.x00 src_square = Ret r
    /\ (run_sig r * run_sig r) mod run_n r = run_e r
    /\ run_sig r = 64 /\ run_sig_after r = 6.
Proof. eexists. split; [vm_compute; reflexivity|]. cbn. repeat split. Qed.



(** C2 on the code: the pipeline, fed bytes that make p = 3, q = 31, e = 7
    and root 0, produces the signature 10 and zsig = 1, since the first
    convergent 9 equals isqrt(93); the verification quantity 1*1*7 mod 93
    is 7, not a square, and the first pass of the verification loop
    aborts. *)
Theorem verification_rejects_pipeline_output :
  pipeline trial_probab_prime_p 64 Byte.x00 src_nonsquare
  = Ret (mkRun 3 31 93 (-30) 31 7 false false 0 10 10 1)
  /\ (1 * 1 * 7) mod 93 = 7 /\ Z.sqrtrem 7 = (2, 3)
  /\ verify_once 1 7 93 = Aborted
  /\ main trial_probab_prime_p 64 Byte.x00 src_nonsquare = Aborted.
Proof. repeat split; vm_compute; reflexivity. Qed.

(** C9 on the code: the read of the root byte is neither retried nor
    checked.  Interrupted, it leaves the next event of the source unread
    and root is taken from the uninitialised byte; at end of file it does
    the same instead of aborting.  The checked reads of the same source
    retry and abort. *)
Theorem root_read_is_unchecked (garbage : Byte.byte) (rest : source) :
  select_root garbage (Fails true :: rest)
  = (Z.land (Z.of_N (Byte.to_N garbage)) 3, rest)
  /\ select_root garbage (Fails false :: rest)
     = (Z.land (Z.of_N (Byte.to_N garbage)) 3, rest)
  /\ select_root garbage [] = (Z.land (Z.of_N (Byte.to_N garbage)) 3, [])
  /\ read_retry (Fails true :: Delivers [Byte.x01] :: rest) 1
     = (mkRead 1 false [Byte.x01], rest)
  /\ (exists r,
        pipeline trial_probab_prime_p 64 Byte.x02 src_interrupted = Ret r
        /\ run_root r = 2 /\ run_sig r = 91)
  /\ (exists r,
        pipeline trial_probab_prime_p 64 Byte.x01 src_interrupted = Ret r
        /\ run_root r = 1 /\ run_sig r = 2)
  /\ random_element (Fails false :: rest) 1024 93 = Aborted.
Proof.
  repeat split; try reflexivity;
    eexists; (split; [vm_compute; reflexivity|]); cbn; split; reflexivity.
Qed.

(** ** The checked reads of init_random_prime and random_element *)

Lemma read_retry_repeat k src count :
  read_retry (repeat (Fails true) k ++ src) count = read_retry src count.
Proof. induction k as [|k IH]; [reflexivity|exact IH]. Qed.

Lemma read_retry_delivers d rest count :
  read_retry (Delivers d :: rest) count
  = (mkRead (Z.of_nat (length (firstn (Z.to_nat count) d))) false
       (firstn (Z.to_nat count) d), rest).
Proof.
  cbn [read_retry sys_read rd_ret rd_eintr]. rewrite andb_false_r. reflexivity.
Qed.

Lemma read_retry_fails rest count :
  read_retry (Fails false :: rest) count = (mkRead (-1) false [], rest).
Proof.
  cbn [read_retry sys_read rd_ret rd_eintr]. rewrite andb_false_r. reflexivity.
Qed.

Lemma read_retry_result src count :
  let r := fst (read_retry src count) in
  (rd_ret r = -1 /\ rd_eintr r = false /\ rd_data r = [])
  \/ (rd_ret r = Z.of_nat (length (rd_data r))
      /\ (length (rd_data r) <= Z.to_nat count)%nat).
Proof.
  induction src as [|[d|[|]] rest IH].
  - right. cbn. split; [reflexivity|lia].
  - right. rewrite read_retry_delivers. cbn [fst rd_ret rd_data].
    split; [reflexivity|]. apply firstn_le_length.
  - exact IH.
  - left. cbn. tauto.
Qed.

(** X1: the read loop swallows any run of interrupted reads, and what it
    hands back is never an interrupted read: either a failure with an
    errno other than EINTR, or as many bytes as the return value says and
    no more than were asked for. *)
Theorem read_retry_skips_interrupts (k : nat) (src : source) (count : Z) :
  read_retry (repeat (Fails true) k ++ src) count = read_retry src count
  /\ (let r := fst (read_retry src count) in
      (rd_ret r = -1 /\ rd_eintr r = false)
      \/ (rd_ret r = Z.of_nat (length (rd_data r))
          /\ (length (rd_data r) <= Z.to_nat count)%nat)).
Proof.
  split; [apply read_retry_repeat|].
  destruct (read_retry_result src count) as [[H1 [H2 _]]|H]; [left|right]; tauto.
Qed.

Lemma shiftr3_div size : Z.shiftr size 3 = size / 8.
Proof. rewrite Z.shiftr_div_pow2 by lia. reflexivity. Qed.

Lemma import_snoc bs b :
  Mpz.import (bs ++ [b]) = Mpz.import bs * 256 + Z.of_N (Byte.to_N b).
Proof. unfold Mpz.import. rewrite fold_left_app. reflexivity. Qed.

Lemma byte_range b : 0 <= Z.of_N (Byte.to_N b) < 256.
Proof. destruct b; cbn; lia. Qed.

Lemma import_range bs : 0 <= Mpz.import bs < 256 ^ Z.of_nat (length bs).
Proof.
  induction bs as [|b bs IH] using rev_ind.
  - cbn. lia.
  - rewrite import_snoc, length_app. cbn [length].
    replace (Z.of_nat (length bs + 1)) with (Z.succ (Z.of_nat (length bs))) by lia.
    rewrite Z.pow_succ_r by lia. pose proof (byte_range b). lia.
Qed.

Lemma read_retry_source src count :
  forall r rest,
    read_retry src count = (r, rest) -> 1 <= rd_ret r ->
    exists k d,
      src = repeat (Fails true) k ++ Delivers d :: rest
      /\ rd_data r = firstn (Z.to_nat count) d.
Proof.
  induction src as [|[d|[|]] src IH]; intros r rest Hrun Hret.
  - cbn in Hrun. injection Hrun as <- <-. cbn in Hret. lia.
  - rewrite read_retry_delivers in Hrun. injection Hrun as <- <-.
    exists 0%nat, d. split; reflexivity.
  - change (read_retry (Fails true :: src) count) with (read_retry src count) in Hrun.
    destruct (IH r rest Hrun Hret) as [k [d [-> Hd]]].
    exists (S k), d. split; [reflexivity|assumption].
  - rewrite read_retry_fails in Hrun. injection Hrun as <- <-. cbn in Hret. lia.
Qed.

(** X2: for an unsigned size, whatever random_element returns is the
    big-endian value of the bytes its read loop stored, exactly size/8 of
    them, reduced into 0 <= e < |n|, and the source it hands on is the one
    the read loop left; it returns only for a non-zero modulus and a size
    within the 2048-byte buffer.  With size >= 8 the source then began
    with interrupted reads only, followed by the delivery whose first
    size/8 bytes were imported. *)
Theorem random_element_returns (src src' : source) (size n e : Z) :
  0 <= size ->
  random_element src size n = Ret (e, src') ->
  n <> 0 /\ Z.shiftr size 3 <= sizeof_buffer /\ 0 <= e < Z.abs n
  /\ rd_ret (fst (read_retry src (Z.shiftr size 3))) = Z.shiftr size 3
  /\ Z.of_nat (length (rd_data (fst (read_retry src (Z.shiftr size 3)))))
     = Z.shiftr size 3
  /\ e = Mpz.import (rd_data (fst (read_retry src (Z.shiftr size 3))))
         mod Z.abs n
  /\ src' = snd (read_retry src (Z.shiftr size 3))
  /\ (8 <= size ->
      exists k d,
        src = repeat (Fails true) k ++ Delivers d :: src'
        /\ Z.shiftr size 3 <= Z.of_nat (length d)
        /\ e = Mpz.import (firstn (Z.to_nat (Z.shiftr size 3)) d) mod Z.abs n).
Proof.
  intros Hsize. unfold random_element.
  destruct (Z.gtb_spec (Z.shiftr size 3) sizeof_buffer) as [|Hsz]; [discriminate|].
  pose proof (read_retry_result src (Z.shiftr size 3)) as Hr. cbv zeta in Hr.
  pose proof (read_retry_source src (Z.shiftr size 3)) as Hsrc.
  destruct (read_retry src (Z.shiftr size 3)) as [r src1]. cbn [fst snd] in *.
  destruct (Z.eqb_spec (rd_ret r) (Z.shiftr size 3)) as [Hret|]; [|discriminate].
  cbn [negb]. unfold Mpz.mod_.
  destruct (Z.eqb_spec n 0) as [|Hn]; [discriminate|]. cbn [bind].
  intros [= <- <-].
  assert (Hb : 0 <= Z.shiftr size 3) by (apply Z.shiftr_nonneg; assumption).
  assert (Hlen : Z.of_nat (length (rd_data r)) = Z.shiftr size 3)
    by (destruct Hr as [[H1 _]|[H1 _]]; lia).
  split; [assumption|]. split; [assumption|].
  split; [apply Z.mod_pos_bound; lia|].
  split; [assumption|]. split; [assumption|].
  split; [reflexivity|]. split; [reflexivity|].
  intros H8.
  assert (Hb1 : 1 <= Z.shiftr size 3).
  { rewrite shiftr3_div. apply Z.div_le_lower_bound; lia. }
  destruct (Hsrc r src1 eq_refl ltac:(lia)) as [k [d [-> Hd]]].
  exists k, d. split; [reflexivity|]. rewrite <- Hd. split; [|reflexivity].
  rewrite Hd, length_firstn in Hlen. lia.
Qed.

Lemma random_element_returns_witness :
  93 <> 0 /\ Z.shiftr 16 3 <= sizeof_buffer /\ 0 <= 7 < Z.abs 93
  /\ rd_ret (fst (read_retry [Fails true; Delivers [Byte.x00; Byte.x07; Byte.xff]]
                   (Z.shiftr 16 3))) = Z.shiftr 16 3
  /\ Z.of_nat (length (rd_data (fst (read_retry
         [Fails true; Delivers [Byte.x00; Byte.x07; Byte.xff]] (Z.shiftr 16 3)))))
     = Z.shiftr 16 3
  /\ 7 = Mpz.import (rd_data (fst (read_retry
         [Fails true; Delivers [Byte.x00; Byte.x07; Byte.xff]] (Z.shiftr 16 3))))
         mod Z.abs 93
  /\ [] = snd (read_retry [Fails true; Delivers [Byte.x00; Byte.x07; Byte.xff]]
                 (Z.shiftr 16 3))
  /\ (8 <= 16 ->
      exists k d,
        [Fails true; Delivers [Byte.x00; Byte.x07; Byte.xff]]
        = repeat (Fails true) k ++ Delivers d :: []
        /\ Z.shiftr 16 3 <= Z.of_nat (length d)
        /\ 7 = Mpz.import (firstn (Z.to_nat (Z.shiftr 16 3)) d) mod Z.abs 93).
Proof.
  apply (random_element_returns
           [Fails true; Delivers [Byte.x00; Byte.x07; Byte.xff]] [] 16 93 7).
  - lia.
  - vm_compute. reflexivity.
Defined.

Lemma firstn_exact (data : list Byte.byte) bytes :
  Z.of_nat (length data) = bytes -> firstn (Z.to_nat bytes) data = data.
Proof. intros H. apply firstn_all2. lia. Qed.

Lemma firstn_short (data : list Byte.byte) bytes :
  Z.of_nat (length data) < bytes -> firstn (Z.to_nat bytes) data = data.
Proof. intros H. apply firstn_all2. lia. Qed.

(** X3: random_element retries interrupted reads transparently: after any
    number of EINTR failures, a delivery of the size/8 bytes asked for
    makes it return their big-endian value mod |n| and leaves the rest of
    the source untouched. *)
Theorem random_element_full_read
    (k : nat) (data : list Byte.byte) (rest : source) (size n : Z) :
  Z.of_nat (length data) = Z.shiftr size 3 ->
  Z.shiftr size 3 <= sizeof_buffer -> n <> 0 ->
  random_element (repeat (Fails true) k ++ Delivers data :: rest) size n
  = Ret (Mpz.import data mod Z.abs n, rest).
Proof.
  intros Hlen Hsz Hn. unfold random_element.
  destruct (Z.gtb_spec (Z.shiftr size 3) sizeof_buffer) as [|_]; [lia|].
  rewrite read_retry_repeat, read_retry_delivers, (firstn_exact data) by assumption.
  cbn [rd_ret rd_data]. rewrite Hlen, Z.eqb_refl. cbn [negb].
  unfold Mpz.mod_. apply Z.eqb_neq in Hn. rewrite Hn. reflexivity.
Qed.

Lemma random_element_full_read_witness :
  random_element (repeat (Fails true) 2 ++ Delivers [Byte.x07; Byte.x01] :: []) 16 93
  = Ret (Mpz.import [Byte.x07; Byte.x01] mod Z.abs 93, []).
Proof.
  apply (random_element_full_read 2 [Byte.x07; Byte.x01] [] 16 93).
  - reflexivity.
  - vm_compute. discriminate.
  - lia.
Defined.

(** X4: both checked reads are fatal on anything but a full read.  With
    size >= 8, after any number of interrupted reads, a delivery shorter
    than size/8 bytes, a failure with another errno, or the end of the
    source makes init_random_prime and random_element abort; so does,
    before any read, a size beyond the 2048-byte buffer. *)
Theorem checked_reads_abort
    (test : Z -> Z -> Z) (fuel k : nat) (rest : source) (size mod8 n : Z) :
  8 <= size ->
  (forall d, Z.of_nat (length d) < Z.shiftr size 3 ->
     init_random_prime test (S fuel)
       (repeat (Fails true) k ++ Delivers d :: rest) size mod8 = Aborted
     /\ random_element (repeat (Fails true) k ++ Delivers d :: rest) size n
        = Aborted)
  /\ init_random_prime test (S fuel)
       (repeat (Fails true) k ++ Fails false :: rest) size mod8 = Aborted
  /\ random_element (repeat (Fails true) k ++ Fails false :: rest) size n
     = Aborted
  /\ init_random_prime test (S fuel) (repeat (Fails true) k) size mod8 = Aborted
  /\ random_element (repeat (Fails true) k) size n = Aborted
  /\ (8 * sizeof_buffer + 8 <= size ->
      forall src,
        init_random_prime test fuel src size mod8 = Aborted
        /\ random_element src size n = Aborted).
Proof.
  intros Hsize.
  assert (Hb : 1 <= Z.shiftr size 3).
  { rewrite shiftr3_div. apply Z.div_le_lower_bound; lia. }
  unfold init_random_prime, random_element.
  destruct (Z.gtb_spec (Z.shiftr size 3) sizeof_buffer) as [Hgt|Hle].
  - repeat split; reflexivity.
  - assert (Heof : read_retry (repeat (Fails true) k) (Z.shiftr size 3)
                   = (mkRead 0 false [], [])).
    { rewrite <- (app_nil_r (repeat _ k)), read_retry_repeat. reflexivity. }
    repeat split.
    + cbn [random_prime_loop].
      rewrite read_retry_repeat, read_retry_delivers, (firstn_short d) by assumption.
      cbn [rd_ret]. destruct (Z.eqb_spec (Z.of_nat (length d)) (Z.shiftr size 3));
        [lia|reflexivity].
    + rewrite read_retry_repeat, read_retry_delivers, (firstn_short d) by assumption.
      cbn [rd_ret]. destruct (Z.eqb_spec (Z.of_nat (length d)) (Z.shiftr size 3));
        [lia|reflexivity].
    + cbn [random_prime_loop]. rewrite read_retry_repeat, read_retry_fails.
      cbn [rd_ret].
      destruct (Z.eqb_spec (-1) (Z.shiftr size 3)); [lia|reflexivity].
    + rewrite read_retry_repeat, read_retry_fails. cbn [rd_ret].
      destruct (Z.eqb_spec (-1) (Z.shiftr size 3)); [lia|reflexivity].
    + cbn [random_prime_loop]. rewrite Heof. cbn [rd_ret].
      destruct (Z.eqb_spec 0 (Z.shiftr size 3)); [lia|reflexivity].
    + rewrite Heof. cbn [rd_ret].
      destruct (Z.eqb_spec 0 (Z.shiftr size 3)); [lia|reflexivity].
    + exfalso. rewrite shiftr3_div in Hle. unfold sizeof_buffer in *.
      assert (2049 <= size / 8) by (apply Z.div_le_lower_bound; lia). lia.
    + exfalso. rewrite shiftr3_div in Hle. unfold sizeof_buffer in *.
      assert (2049 <= size / 8) by (apply Z.div_le_lower_bound; lia). lia.
Qed.

Lemma checked_reads_abort_witness :
  init_random_prime trial_probab_prime_p 1
    (repeat (Fails true) 1 ++ Fails false :: []) 16 3 = Aborted.
Proof.
  assert (H : 8 <= 16) by lia.
  exact (proj1 (proj2 (checked_reads_abort trial_probab_prime_p 0 1 [] 16 3 93 H))).
Defined.

(** ** Size and resampling in init_random_prime *)

Lemma random_prime_loop_candidate test bytes mod8 :
  0 <= bytes ->
  forall fuel src n src',
    random_prime_loop test fuel src bytes mod8 = Ret (n, src') ->
    exists data,
      Z.of_nat (length data) = bytes
      /\ n = force_low_bits (Mpz.import data) mod8.
Proof.
  intros Hb. induction fuel as [|fuel IH]; intros src n src' Hrun; [discriminate|].
  cbn [random_prime_loop] in Hrun.
  pose proof (read_retry_result src bytes) as Hr. cbv zeta in Hr.
  destruct (read_retry src bytes) as [r src1]. cbn [fst] in Hr.
  destruct (Z.eqb_spec (rd_ret r) bytes) as [Hret|]; [|discriminate].
  cbn [negb] in Hrun.
  destruct (negb (test (force_low_bits (Mpz.import (rd_data r)) mod8) 10 =? 0)).
  - injection Hrun as <- <-. exists (rd_data r). split; [|reflexivity].
    destruct Hr as [[H1 _]|[H1 _]]; lia.
  - apply (IH _ _ _ Hrun).
Qed.

Lemma force_low_bits_high n mod8 :
  Z.shiftr (force_low_bits n mod8) 3 = Z.shiftr n 3.
Proof.
  apply Z.bits_inj'. intros m Hm. rewrite !Z.shiftr_spec by assumption.
  unfold force_low_bits, Mpz.setbit, Mpz.clrbit.
  destruct (negb (Z.land mod8 2 =? 0)); destruct (negb (Z.land mod8 4 =? 0));
    repeat first [rewrite Z.setbit_neq by lia | rewrite Z.clearbit_neq by lia];
    reflexivity.
Qed.

Lemma force_low_bits_low n mod8 : 1 <= force_low_bits n mod8 mod 8 <= 7.
Proof.
  change 8 with (2 ^ 3). rewrite <- Z.land_ones by lia. change (Z.ones 3) with 7.
  unfold force_low_bits, Mpz.setbit, Mpz.clrbit.
  destruct (negb (Z.land mod8 2 =? 0)); destruct (negb (Z.land mod8 4 =? 0)).
  - rewrite (low_bits_value n true true). lia.
  - rewrite (low_bits_value n true false). lia.
  - rewrite (low_bits_value n false true). lia.
  - rewrite (low_bits_value n false false). lia.
Qed.

Lemma force_low_bits_bound n mod8 k :
  3 <= k -> 0 <= n < 2 ^ k -> 1 <= force_low_bits n mod8 < 2 ^ k.
Proof.
  intros Hk Hn.
  pose proof (force_low_bits_high n mod8) as Hhigh.
  pose proof (force_low_bits_low n mod8) as Hlow.
  rewrite !shiftr3_div in Hhigh.
  pose proof (Z.div_mod (force_low_bits n mod8) 8 ltac:(lia)) as Hdm.
  rewrite Hhigh in Hdm.
  assert (Hpow : 2 ^ k = 8 * 2 ^ (k - 3)).
  { change 8 with (2 ^ 3). rewrite <- Z.pow_add_r by lia. f_equal. lia. }
  assert (Hq : 0 <= n / 8 < 2 ^ (k - 3)).
  { split; [apply Z.div_pos; lia|]. apply Z.div_lt_upper_bound; lia. }
  lia.
Qed.

(** X5: with size >= 8, the number init_random_prime returns is at least
    1 and below 2^(8*(size/8)), so it has at most size bits; no high bit
    is forced, so nothing bounds it from below. *)
Theorem init_random_prime_size
    (test : Z -> Z -> Z) (fuel : nat) (src src' : source) (size mod8 n : Z) :
  8 <= size ->
  init_random_prime test fuel src size mod8 = Ret (n, src') ->
  1 <= n < 2 ^ (8 * Z.shiftr size 3) /\ n < 2 ^ size.
Proof.
  intros Hsize Hrun. unfold init_random_prime in Hrun.
  destruct (Z.shiftr size 3 >? sizeof_buffer); [discriminate|].
  assert (Hb : 1 <= Z.shiftr size 3).
  { rewrite shiftr3_div. apply Z.div_le_lower_bound; lia. }
  apply random_prime_loop_candidate in Hrun; [|lia].
  destruct Hrun as [data [Hlen ->]].
  pose proof (import_range data) as Hr. rewrite Hlen in Hr.
  change 256 with (2 ^ 8) in Hr. rewrite <- Z.pow_mul_r in Hr by lia.
  assert (Hbound : 1 <= force_low_bits (Mpz.import data) mod8
                   < 2 ^ (8 * Z.shiftr size 3))
    by (apply force_low_bits_bound; lia).
  split; [assumption|].
  apply Z.lt_le_trans with (2 ^ (8 * Z.shiftr size 3)); [lia|].
  apply Z.pow_le_mono_r; [lia|]. rewrite shiftr3_div.
  pose proof (Z.mul_div_le size 8 ltac:(lia)). lia.
Qed.

Lemma init_random_prime_size_witness :
  1 <= 31 < 2 ^ (8 * Z.shiftr 512 3) /\ 31 < 2 ^ 512.
Proof.
  apply (init_random_prime_size trial_probab_prime_p 1
           [Delivers (zeros 63 ++ [Byte.x1f])] [] 512 7 31).
  - lia.
  - vm_compute. reflexivity.
Defined.

Lemma random_prime_loop_rejects test fuel data rest bytes mod8 :
  Z.of_nat (length data) = bytes ->
  test (force_low_bits (Mpz.import data) mod8) 10 = 0 ->
  random_prime_loop test (S fuel) (Delivers data :: rest) bytes mod8
  = random_prime_loop test fuel rest bytes mod8.
Proof.
  intros Hlen Htest. cbn [random_prime_loop].
  rewrite read_retry_delivers, (firstn_exact data) by assumption.
  cbn [rd_ret rd_data]. rewrite Hlen, Z.eqb_refl. cbn [negb].
  rewrite Htest. reflexivity.
Qed.

(** X6: a candidate that fails the primality test is thrown away whole
    and the next read starts afresh: when the source delivers full-length
    candidates that all fail, followed by one that passes, and there is
    fuel for one pass each, init_random_prime returns the passing one and
    has consumed exactly those reads. *)
Theorem init_random_prime_resamples
    (test : Z -> Z -> Z) (fuel : nat) (rejected : list (list Byte.byte))
    (data : list Byte.byte) (rest : source) (size mod8 : Z) :
  Z.shiftr size 3 <= sizeof_buffer ->
  Forall (fun d => Z.of_nat (length d) = Z.shiftr size 3
                   /\ test (force_low_bits (Mpz.import d) mod8) 10 = 0) rejected ->
  Z.of_nat (length data) = Z.shiftr size 3 ->
  test (force_low_bits (Mpz.import data) mod8) 10 <> 0 ->
  (length rejected < fuel)%nat ->
  init_random_prime test fuel
    (map Delivers rejected ++ Delivers data :: rest) size mod8
  = Ret (force_low_bits (Mpz.import data) mod8, rest).
Proof.
  intros Hsz Hrej Hlen Htest. unfold init_random_prime.
  destruct (Z.gtb_spec (Z.shiftr size 3) sizeof_buffer) as [|_]; [lia|].
  revert fuel. induction Hrej as [|d ds [Hd Ht] _ IH]; intros fuel Hfuel.
  - destruct fuel as [|fuel]; [cbn in Hfuel; lia|].
    apply random_prime_loop_first; assumption.
  - destruct fuel as [|fuel]; [cbn in Hfuel; lia|].
    cbn [map app]. rewrite random_prime_loop_rejects by assumption.
    apply IH. cbn [length] in Hfuel. lia.
Qed.

Lemma init_random_prime_resamples_witness :
  init_random_prime trial_probab_prime_p 3
    (map Delivers [[Byte.x18]; [Byte.x20]] ++ Delivers [Byte.x10] :: []) 8 3
  = Ret (force_low_bits (Mpz.import [Byte.x10]) 3, []).
Proof.
  apply (init_random_prime_resamples trial_probab_prime_p 3
           [[Byte.x18]; [Byte.x20]] [Byte.x10] [] 8 3).
  - vm_compute. discriminate.
  - repeat constructor.
  - reflexivity.
  - vm_compute. discriminate.
  - cbn. lia.
Defined.

(** ** More on the oracle, the tweak and the root extractor *)

Lemma abs_divides_multiple k p : (Z.abs p | k * p).
Proof. apply Z.divide_abs_l. exists k. reflexivity. Qed.

(** X7: for any non-zero modulus, prime or not, and any non-negative
    exponent the oracle returns, and a positive answer is never wrong: it
    comes with the square root e^power mod |p|.  The answer only depends
    on e modulo p.  A zero modulus traps. *)
Theorem oracle_positive_answers (e p power : Z) :
  p <> 0 -> 0 <= power ->
  (exists b,
      is_quadratic_residue e p power = Ret b
      /\ (b = true ->
          ((e ^ power mod Z.abs p) * (e ^ power mod Z.abs p)) mod Z.abs p
          = e mod Z.abs p
          /\ QR e (Z.abs p)))
  /\ (forall k,
        is_quadratic_residue (e + k * p) p power
        = is_quadratic_residue e p power)
  /\ is_quadratic_residue e 0 power = DivideByZero.
Proof.
  intros Hp _. unfold is_quadratic_residue, Mpz.mod_, Mpz.powm.
  apply Z.eqb_neq in Hp. rewrite Hp. cbn [bind]. split; [|split].
  - eexists. split; [reflexivity|]. rewrite Z.eqb_eq. intros H.
    split; [exact H|]. exists (e ^ power mod Z.abs p). exact H.
  - intros k.
    assert (Hc : (e + k * p) mod Z.abs p = e mod Z.abs p).
    { apply cong_divide. replace (e + k * p - e) with (k * p) by ring.
      apply abs_divides_multiple. }
    rewrite Hc. rewrite <- (Z.mod_pow_l (e + k * p)), Hc, Z.mod_pow_l.
    reflexivity.
  - reflexivity.
Qed.

Lemma oracle_positive_answers_witness :
  (exists b,
      is_quadratic_residue 4 15 1 = Ret b
      /\ (b = true ->
          ((4 ^ 1 mod Z.abs 15) * (4 ^ 1 mod Z.abs 15)) mod Z.abs 15
          = 4 mod Z.abs 15
          /\ QR 4 (Z.abs 15)))
  /\ (forall k,
        is_quadratic_residue (4 + k * 15) 15 1 = is_quadratic_residue 4 15 1)
  /\ is_quadratic_residue 4 0 1 = DivideByZero.
Proof. apply (oracle_positive_answers 4 15 1); lia. Defined.

(** X8: the tweak doubles exactly when the two oracle answers differ and
    negates exactly when e is reported a non-residue mod q; the element
    it returns is (+-1)*(1 or 2)*e reduced mod n, so an element that
    starts in 0 <= e < n stays there, and is left as it is when no tweak
    applies. *)
Theorem residue_tweak_shape (e p q n e' : Z) (mul_2 negate : bool) :
  0 < n -> 0 <= e < n ->
  residue_tweak e p q n = Ret (e', mul_2, negate) ->
  0 <= e' < n
  /\ e' = ((if negate then -1 else 1) * (if mul_2 then 2 else 1) * e) mod n
  /\ (mul_2 = false -> negate = false -> e' = e)
  /\ exists a b,
       is_quadratic_residue e p (p1over4 p) = Ret a
       /\ is_quadratic_residue e q (p1over4 q) = Ret b
       /\ mul_2 = xorb a b /\ negate = negb b.
Proof.
  intros Hn He. unfold residue_tweak.
  destruct (is_quadratic_residue e p (p1over4 p)) as [a| | |]; try discriminate.
  destruct (is_quadratic_residue e q (p1over4 q)) as [b| | |]; try discriminate.
  cbn [bind]. unfold apply_tweak, Mpz.mod_.
  destruct (Z.eqb_spec n 0) as [|_]; [lia|]. rewrite Z.abs_eq by lia.
  pose proof (Z.mod_small e n He) as Hsmall.
  destruct a, b; cbn; intros [= <- <- <-];
    (split; [try (apply Z.mod_pos_bound; lia); lia|]);
    (split; [try (f_equal; ring); rewrite Z.mul_1_l; symmetry; assumption
                 || (symmetry; destruct e; assumption)|]);
    (split; [intros; try discriminate; reflexivity|]);
    eexists; eexists; repeat split; reflexivity.
Qed.

Lemma residue_tweak_shape_witness :
  0 <= 4 < 21
  /\ 4 = ((if false then -1 else 1) * (if true then 2 else 1) * 2) mod 21
  /\ (true = false -> false = false -> 4 = 2)
  /\ exists a b,
       is_quadratic_residue 2 3 (p1over4 3) = Ret a
       /\ is_quadratic_residue 2 7 (p1over4 7) = Ret b
       /\ true = xorb a b /\ false = negb b.
Proof.
  apply (residue_tweak_shape 2 3 7 21 4 true false); [lia|lia|reflexivity].
Defined.

Lemma mod_of_product_l a p q : (a mod (p * q)) mod p = a mod p.
Proof. apply Z.mod_mod_divide. exists q. ring. Qed.

Lemma mod_of_product_r a p q : (a mod (p * q)) mod q = a mod q.
Proof. apply Z.mod_mod_divide. exists p. ring. Qed.

Lemma opp_mod_mod x n : (- (x mod n)) mod n = (- x) mod n.
Proof.
  destruct (Z.eq_dec n 0) as [->|Hn]; [rewrite !Z.mod_0_r; reflexivity|].
  apply cong_divide. exists (x / n).
  pose proof (Z.div_mod x n Hn). lia.
Qed.

(** X9: for distinct primes p and q and a root index in 0..3, the
    signature the root extractor returns lies in 0 <= s < n, is congruent
    mod p to +-e^((p+1)/4) with the sign chosen by bit 0 of the index and
    mod q to +-e^((q+1)/4) with the sign chosen by bit 1, and the
    complementary index (3 - root) yields the negated signature
    (-s) mod n. *)
Theorem root_extract_selects (p q e root : Z) :
  Z.prime p -> Z.prime q -> p <> q -> 0 <= root <= 3 ->
  let '(n, u, v) := group_builder p q in
  exists s,
    root_extract e p q u v n root = Ret s
    /\ 0 <= s < n
    /\ s mod p
       = (if negb (Z.land root 1 =? 0) then - (e ^ p1over4 p) else e ^ p1over4 p)
         mod p
    /\ s mod q
       = (if negb (Z.land root 2 =? 0) then - (e ^ p1over4 q) else e ^ p1over4 q)
         mod q
    /\ root_extract e p q u v n (3 - root) = Ret ((- s) mod n).
Proof.
  intros Hp Hq Hne Hroot.
  pose proof (Zprime_pos p Hp) as Hp2. pose proof (Zprime_pos q Hq) as Hq2.
  destruct (group_builder_shape p q (distinct_primes_coprime p q Hp Hq Hne))
    as [u0 [v0 [Hb ->]]].
  unfold root_extract. rewrite !powm_prime by assumption. cbn [bind].
  set (P := e ^ p1over4 p mod p). set (Q := e ^ p1over4 q mod q).
  unfold Mpz.mod_. destruct (Z.eqb_spec (p * q) 0); [nia|].
  rewrite Z.abs_eq by nia.
  assert (HP : forall x y, (x * (v0 * q) + y * (u0 * p)) mod p = x mod p).
  { intros x y. apply cong_divide. exists (u0 * (y - x)).
    replace (v0 * q) with (1 - u0 * p) by lia. ring. }
  assert (HQ : forall x y, (x * (v0 * q) + y * (u0 * p)) mod q = y mod q).
  { intros x y. apply cong_divide. exists (v0 * (x - y)).
    replace (u0 * p) with (1 - v0 * q) by lia. ring. }
  assert (HmP : (- P) mod p = (- e ^ p1over4 p) mod p).
  { unfold P. apply opp_mod_mod. }
  assert (HmQ : (- Q) mod q = (- e ^ p1over4 q) mod q).
  { unfold Q. apply opp_mod_mod. }
  assert (HpP : P mod p = e ^ p1over4 p mod p) by (unfold P; apply Z.mod_mod; lia).
  assert (HpQ : Q mod q = e ^ p1over4 q mod q) by (unfold Q; apply Z.mod_mod; lia).
  assert (Hc : root = 0 \/ root = 1 \/ root = 2 \/ root = 3) by lia.
  eexists. split; [reflexivity|]. split; [apply Z.mod_pos_bound; nia|].
  rewrite mod_of_product_l, mod_of_product_r, HP, HQ.
  destruct Hc as [->|[->|[->| ->]]];
    [change (3 - 0) with 3|change (3 - 1) with 2
     |change (3 - 2) with 1|change (3 - 3) with 0];
    repeat match goal with
      | |- context [negb (Z.land ?r ?m =? 0)] =>
          let b := eval vm_compute in (negb (Z.land r m =? 0)) in
          change (negb (Z.land r m =? 0)) with b
      end;
    cbv iota;
    (split; [assumption|]); (split; [assumption|]);
    rewrite opp_mod_mod; f_equal; f_equal; ring.
Qed.

Lemma root_extract_selects_witness :
  let '(n, u, v) := group_builder 3 7 in
  exists s,
    root_extract 4 3 7 u v n 2 = Ret s
    /\ 0 <= s < n
    /\ s mod 3
       = (if negb (Z.land 2 1 =? 0) then - (4 ^ p1over4 3) else 4 ^ p1over4 3)
         mod 3
    /\ s mod 7
       = (if negb (Z.land 2 2 =? 0) then - (4 ^ p1over4 7) else 4 ^ p1over4 7)
         mod 7
    /\ root_extract 4 3 7 u v n (3 - 2) = Ret ((- s) mod n).
Proof.
  apply (root_extract_selects 3 7 4 2).
  - apply trial_prime_sound. reflexivity.
  - apply trial_prime_sound. reflexivity.
  - lia.
  - lia.
Defined.

(** ** The verification check *)

Lemma sqrtrem_square m :
  0 < m ->
  let '(t, t2) := Z.sqrtrem m in
  0 < t /\ (t2 = 0 <-> m = t * t) /\ 0 <= t2 /\ forall x, 0 < x -> m = x * x -> x = t.
Proof.
  intros Hm. pose proof (Z.sqrtrem_spec m ltac:(lia)) as Hspec.
  destruct (Z.sqrtrem m) as [t t2]. destruct Hspec as [Heq Hr].
  assert (Ht : 0 < t) by nia.
  split; [assumption|]. split; [lia|]. split; [lia|].
  intros x Hx Hxx. nia.
Qed.

(** X10: for a non-zero modulus one pass of the verification accepts
    exactly when zsig*zsig*e mod |n| is a non-zero perfect square, and
    then hands back its positive root; in every other case it aborts. *)
Theorem verify_once_accepts_squares (zsig e n : Z) :
  n <> 0 ->
  (forall t, verify_once zsig e n = Ret t
             <-> 0 < t /\ (zsig * zsig * e) mod Z.abs n = t * t)
  /\ ((forall t, verify_once zsig e n <> Ret t) -> verify_once zsig e n = Aborted).
Proof.
  intros Hn. unfold verify_once, Mpz.mod_, Mpz.sgn, Mpz.sqrtrem.
  apply Z.eqb_neq in Hn. rewrite Hn. cbn [bind].
  set (m := (zsig * zsig * e) mod Z.abs n).
  assert (Hm : 0 <= m).
  { apply Z.mod_pos_bound. apply Z.eqb_neq in Hn. lia. }
  destruct (Z.eqb_spec (Z.sgn m) 0) as [Hz|Hnz].
  - split; [|reflexivity]. intros t. split; [discriminate|].
    intros [Ht Hsq]. rewrite Z.sgn_null_iff in Hz. nia.
  - assert (Hpos : 0 < m).
    { destruct (Z.eq_dec m 0) as [H0|H0]; [rewrite H0 in Hnz; cbn in Hnz; lia|lia]. }
    pose proof (sqrtrem_square m Hpos) as Hs.
    destruct (Z.sqrtrem m) as [t0 t2]. destruct Hs as [Ht0 [Hiff [Ht2 Huniq]]].
    destruct (Z.eqb_spec (Z.sgn t2) 0) as [Hs2|Hs2]; cbn [negb].
    + rewrite Z.sgn_null_iff in Hs2. split.
      * intros t. split.
        -- intros [= Heq]. subst t. split; [exact Ht0|]. apply Hiff. exact Hs2.
        -- intros [Ht Hsq]. f_equal. symmetry. apply Huniq; assumption.
      * intros Hno. exfalso. apply (Hno t0). reflexivity.
    + split; [|reflexivity]. intros t. split; [discriminate|].
      intros [Ht Hsq]. exfalso. apply Hs2.
      pose proof (Huniq t Ht Hsq) as Heq. subst t.
      apply Z.sgn_null_iff. apply Hiff. exact Hsq.
Qed.

Lemma verify_once_accepts_squares_witness :
  (forall t, verify_once 3 4 93 = Ret t
             <-> 0 < t /\ (3 * 3 * 4) mod Z.abs 93 = t * t)
  /\ ((forall t, verify_once 3 4 93 <> Ret t) -> verify_once 3 4 93 = Aborted).
Proof. apply (verify_once_accepts_squares 3 4 93). lia. Defined.

(** ** How many passes the compressor makes *)

Lemma remainder_halves b s : 0 < s <= b -> 2 * (b mod s) < b.
Proof.
  intros H. pose proof (Z.mod_pos_bound b s ltac:(lia)) as Hr.
  pose proof (Z.div_mod b s ltac:(lia)) as Hdm.
  assert (Hq : 1 <= b / s) by (apply Z.div_le_lower_bound; lia).
  nia.
Qed.

Lemma cf_loop_total_log N0 S0 root :
  root <= N0 / Z.gcd S0 N0 ->
  forall fuel st,
    cf_inv N0 S0 st -> cur st < root ->
    big st * small st < 2 ^ Z.of_nat fuel ->
    exists st', cf_loop fuel root st = Ret st' /\ root <= cur st'.
Proof.
  intros Hroot. induction fuel as [|fuel IH]; intros st Hinv Hcur Hfuel.
  - exfalso. pose proof (inv_pair _ _ _ Hinv) as Hp.
    assert (H0 : small st <> 0).
    { intros H0. pose proof (cf_inv_exhausted N0 S0 st Hinv H0). lia. }
    change (2 ^ Z.of_nat 0) with 1 in Hfuel. nia.
  - assert (H0 : small st <> 0).
    { intros H0. pose proof (cf_inv_exhausted N0 S0 st Hinv H0). lia. }
    pose proof (inv_pair _ _ _ Hinv) as Hp.
    destruct (cf_inv_step N0 S0 st Hinv H0) as [st1 [Hst [Hinv1 _]]].
    destruct (cf_step_ret st (inv_index _ _ _ Hinv) H0)
      as [st2 [Hst2 [_ [_ [Hb [Hsm _]]]]]].
    rewrite Hst in Hst2. injection Hst2 as <-.
    rewrite cf_loop_unfold, Hst. cbn [bind].
    destruct (Z.ltb_spec (cur st1) root) as [Hlt|Hge].
    + apply IH; [assumption|assumption|].
      rewrite Hb, Hsm.
      pose proof (remainder_halves (big st) (small st) ltac:(lia)) as Hh.
      pose proof (Z.mod_pos_bound (big st) (small st) ltac:(lia)) as Hr.
      rewrite Nat2Z.inj_succ, Z.pow_succ_r in Hfuel by lia. nia.
    + exists st1. split; [reflexivity|assumption].
Qed.

(** X11: the loop of signature_compress is as short as Euclid's
    algorithm: for 0 < s < n with isqrt(n) <= n / gcd(s, n) it has
    returned after at most 2*(log2(n) + 1) passes, each pass at least
    halving the product of the two working values. *)
Theorem compress_loop_logarithmic (s n : Z) (fuel : nat) :
  0 < s < n -> Z.sqrt n <= n / Z.gcd s n ->
  2 * (Z.log2 n + 1) <= Z.of_nat fuel ->
  exists c, signature_compress fuel s n = Ret c.
Proof.
  intros Hs Hg Hfuel.
  pose proof (Z.log2_spec n ltac:(lia)) as [_ Hlog].
  pose proof (Z.log2_nonneg n) as Hnn.
  assert (Hpow : s * n < 2 ^ Z.of_nat fuel).
  { apply Z.lt_le_trans with (2 ^ (2 * (Z.log2 n + 1))).
    - rewrite (Z.mul_comm 2), Z.pow_mul_r, Z.pow_2_r by lia.
      replace (Z.succ (Z.log2 n)) with (Z.log2 n + 1) in Hlog by lia. nia.
    - apply Z.pow_le_mono_r; lia. }
  destruct fuel as [|fuel]; [lia|].
  rewrite signature_compress_unfold, cf_loop_unfold.
  pose proof (cf_inv_init n s Hs) as Hinv.
  assert (H0 : small (cf_init s n) <> 0) by (change (small (cf_init s n)) with s; lia).
  destruct (cf_inv_step n s _ Hinv H0) as [st1 [Hst [Hinv1 _]]].
  destruct (cf_step_ret _ (inv_index _ _ _ Hinv) H0)
    as [st2 [Hst2 [_ [_ [Hb [Hsm _]]]]]].
  rewrite Hst in Hst2. injection Hst2 as <-.
  change (small (cf_init s n)) with s in *. change (big (cf_init s n)) with n in *.
  rewrite Hst. cbn [bind].
  destruct (Z.ltb_spec (cur st1) (Z.sqrt n)) as [Hlt|Hge].
  - destruct (cf_loop_total_log n s (Z.sqrt n) Hg fuel st1 Hinv1 Hlt) as [st' [Hl _]].
    + rewrite Hb, Hsm.
      pose proof (remainder_halves n s ltac:(lia)) as Hh.
      pose proof (Z.mod_pos_bound n s ltac:(lia)) as Hr.
      rewrite Nat2Z.inj_succ, Z.pow_succ_r in Hpow by lia. nia.
    + rewrite Hl. eexists. reflexivity.
  - eexists. reflexivity.
Qed.

Lemma compress_loop_logarithmic_witness :
  exists c, signature_compress 14 64 93 = Ret c.
Proof.
  apply (compress_loop_logarithmic 64 93 14); [lia| |vm_compute; discriminate].
  vm_compute. discriminate.
Defined.

(** ** The pipeline as a whole *)

Lemma init_random_prime_residue test fuel src size mod8 n src' :
  0 <= mod8 <= 7 ->
  init_random_prime test fuel src size mod8 = Ret (n, src') ->
  test n 10 <> 0 /\ n mod 8 = Z.lor mod8 1.
Proof.
  intros Hm Hrun. unfold init_random_prime in Hrun.
  destruct (Z.shiftr size 3 >? sizeof_buffer); [discriminate|].
  apply random_prime_loop_accepts in Hrun. destruct Hrun as [[n0 ->] Htest].
  split; [assumption|]. apply force_low_bits_mod8. assumption.
Qed.

Lemma random_element_range src size n e src' :
  0 < n -> random_element src size n = Ret (e, src') -> 0 <= e < n.
Proof.
  intros Hn. unfold random_element.
  destruct (Z.shiftr size 3 >? sizeof_buffer); [discriminate|].
  destruct (read_retry src (Z.shiftr size 3)) as [r src1].
  destruct (negb (rd_ret r =? Z.shiftr size 3)); [discriminate|].
  unfold Mpz.mod_. destruct (Z.eqb_spec n 0); [lia|]. cbn [bind].
  intros [= <- <-]. rewrite Z.abs_eq by lia. apply Z.mod_pos_bound. lia.
Qed.

Lemma tweak_residues p q e :
  Z.prime p -> Z.prime q -> p mod 8 = 3 -> q mod 8 = 7 -> 0 <= e < p * q ->
  exists e' mul_2 negate,
    residue_tweak e p q (p * q) = Ret (e', mul_2, negate)
    /\ 0 <= e' < p * q /\ QR e' p /\ QR e' q.
Proof.
  intros Hp Hq Hp8 Hq8 He.
  assert (Hp4 : p mod 4 = 3) by (apply mod8_mod4; tauto).
  assert (Hq4 : q mod 4 = 3) by (apply mod8_mod4; tauto).
  pose proof (Zprime_pos p Hp) as Hp2. pose proof (Zprime_pos q Hq) as Hq2.
  pose proof (oracle_value p Hp e) as Ha.
  pose proof (oracle_value q Hq e) as Hb.
  set (a := (_ =? _)) in Ha. set (b := (_ =? _)) in Hb.
  pose proof (oracle_sound p Hp Hp4 e a Ha) as Hqa.
  pose proof (oracle_sound q Hq Hq4 e b Hb) as Hqb.
  assert (Hpq : 0 < p * q) by nia.
  assert (Hn : (p * q =? 0) = false) by (apply Z.eqb_neq; lia).
  assert (Habs : Z.abs (p * q) = p * q) by (apply Z.abs_eq; lia).
  assert (Hrange : forall x, 0 <= x mod (p * q) < p * q)
    by (intros x; apply Z.mod_pos_bound; lia).
  unfold residue_tweak. rewrite Ha, Hb. cbn [bind].
  destruct a, b; cbn [tweak_flags xorb negb apply_tweak orb];
    unfold Mpz.mod_; rewrite ?Hn, ?Habs; cbn [bind];
    do 3 eexists; (split; [reflexivity|]); (split; [try apply Hrange; try lia|]).
  - split; [apply Hqa|apply Hqb]; reflexivity.
  - replace (- e * 2) with (-2 * e) by ring. apply qr_reduced.
    + apply qr_scale;
        [assumption|assumption|apply minus_two_residue_3mod8; assumption
        |apply Hqa; reflexivity].
    + apply nonresidue_scale;
        [assumption|assumption|apply minus_two_nonresidue_7mod8; assumption
        |apply (not_true_iff_not _ _ Hqb); reflexivity].
  - replace (e * 2) with (2 * e) by ring. apply qr_reduced.
    + apply nonresidue_scale;
        [assumption|assumption|apply two_nonresidue_3mod8; assumption
        |apply (not_true_iff_not _ _ Hqa); reflexivity].
    + apply qr_scale;
        [assumption|assumption|apply two_residue_7mod8; assumption
        |apply Hqb; reflexivity].
  - replace (- e) with (-1 * e) by ring. apply qr_reduced.
    + apply nonresidue_scale;
        [assumption|assumption|apply euler_minus_one; assumption
        |apply (not_true_iff_not _ _ Hqa); reflexivity].
    + apply nonresidue_scale;
        [assumption|assumption|apply euler_minus_one; assumption
        |apply (not_true_iff_not _ _ Hqb); reflexivity].
Qed.

Lemma root_extract_squares p q u0 v0 e root :
  Z.prime p -> Z.prime q -> p mod 4 = 3 -> q mod 4 = 3 ->
  u0 * p + v0 * q = 1 -> 0 <= e < p * q -> QR e p -> QR e q ->
  exists s,
    root_extract e p q (u0 * p) (v0 * q) (p * q) root = Ret s
    /\ 0 <= s < p * q /\ (s * s) mod (p * q) = e.
Proof.
  intros Hp Hq Hp4 Hq4 Hb He Hqp Hqq.
  pose proof (Zprime_pos p Hp) as Hp2. pose proof (Zprime_pos q Hq) as Hq2.
  assert (Hpq : 0 < p * q) by nia.
  unfold root_extract. rewrite !powm_prime by assumption. cbn [bind].
  pose proof (candidate_root p e Hp Hp4 Hqp) as HP.
  pose proof (candidate_root q e Hq Hq4 Hqq) as HQ.
  set (P := e ^ p1over4 p mod p) in *. set (Q := e ^ p1over4 q mod q) in *.
  destruct (negb (Z.land root 1 =? 0)); destruct (negb (Z.land root 2 =? 0));
    unfold Mpz.mod_; (destruct (Z.eqb_spec (p * q) 0); [lia|]);
    rewrite Z.abs_eq by lia; eexists; (split; [reflexivity|]);
    (split; [apply Z.mod_pos_bound; lia|]);
    rewrite <- Zmult_mod;
    (transitivity (e mod (p * q)); [|apply Z.mod_small; lia]);
    apply cong_divide; apply crt_square; try assumption.
  - replace (- P * - P) with (P * P) by ring. assumption.
  - replace (- Q * - Q) with (Q * Q) by ring. assumption.
  - replace (- P * - P) with (P * P) by ring. assumption.
  - replace (- Q * - Q) with (Q * Q) by ring. assumption.
Qed.

Lemma zsig_lag fuel s n c :
  4 <= n -> signature_compress fuel s n = Ret c -> zsig c < Z.sqrt n.
Proof.
  intros Hn. pose proof (sqrt_ge_2 n Hn) as Hroot.
  rewrite signature_compress_unfold.
  destruct (cf_loop fuel (Z.sqrt n) (cf_init s n)) as [st| | |] eqn:Hrun;
    try discriminate.
  cbn [bind]. intros [= <-]. cbn [zsig].
  apply (cf_loop_lag (Z.sqrt n) fuel (cf_init s n) st);
    [cbn; lia|change (cur (cf_init s n)) with 1; lia|assumption].
Qed.

Lemma select_root_range garbage src : 0 <= fst (select_root garbage src) <= 3.
Proof.
  unfold select_root. destruct (sys_read src 1) as [r src']. cbn [fst].
  set (x := Z.of_N _). change 3 with (Z.ones 2). rewrite Z.land_ones by lia.
  pose proof (Z.mod_pos_bound x (2 ^ 2) ltac:(lia)). change (Z.ones 2) with 3.
  change (2 ^ 2) with 4 in *. lia.
Qed.

(** X12: whenever the pipeline reaches the compressed signature with a
    primality test that only accepts primes, its values fit together: p
    and q are primes congruent to 3 and 7 modulo 8, n = p*q, the tweaked
    e lies in 0 <= e < n and is a quadratic residue modulo both primes,
    the signature that is printed is a square root of e modulo n, the
    root index is one of 0..3, and zsig is below isqrt(n). *)
Theorem pipeline_signs
    (test : Z -> Z -> Z) (fuel : nat) (garbage : Byte.byte) (src : source)
    (r : run) :
  (forall m, test m 10 <> 0 -> Z.prime m) ->
  pipeline test fuel garbage src = Ret r ->
  Z.prime (run_p r) /\ Z.prime (run_q r)
  /\ run_p r mod 8 = 3 /\ run_q r mod 8 = 7
  /\ run_n r = run_p r * run_q r
  /\ 0 <= run_e r < run_n r
  /\ QR (run_e r) (run_p r) /\ QR (run_e r) (run_q r)
  /\ 0 <= run_root r <= 3
  /\ 0 <= run_sig r < run_n r
  /\ (run_sig r * run_sig r) mod run_n r = run_e r
  /\ run_zsig r < Z.sqrt (run_n r).
Proof.
  intros Hsound. unfold pipeline.
  destruct (init_random_prime test fuel src 512 3) as [[p src1]| | |] eqn:Ep;
    try discriminate.
  cbn [bind].
  destruct (init_random_prime test fuel src1 512 7) as [[q src2]| | |] eqn:Eq;
    try discriminate.
  cbn [bind].
  assert (H3 : 0 <= 3 <= 7) by lia. assert (H7 : 0 <= 7 <= 7) by lia.
  destruct (init_random_prime_residue test fuel src 512 3 p src1 H3 Ep) as [Htp Hp8].
  destruct (init_random_prime_residue test fuel src1 512 7 q src2 H7 Eq) as [Htq Hq8].
  change (Z.lor 3 1) with 3 in Hp8. change (Z.lor 7 1) with 7 in Hq8.
  pose proof (Hsound p Htp) as Hp. pose proof (Hsound q Htq) as Hq.
  pose proof (Zprime_pos p Hp) as Hp2. pose proof (Zprime_pos q Hq) as Hq2.
  assert (Hne : p <> q) by (intros ->; lia).
  assert (Hp4 : p mod 4 = 3) by (apply mod8_mod4; tauto).
  assert (Hq4 : q mod 4 = 3) by (apply mod8_mod4; tauto).
  assert (Hn21 : 4 <= p * q) by nia.
  assert (Hpq : 0 < p * q) by lia.
  destruct (group_builder_shape p q (distinct_primes_coprime p q Hp Hq Hne))
    as [u0 [v0 [Hb ->]]].
  destruct (random_element src2 1024 (p * q)) as [[e0 src3]| | |] eqn:Ee;
    try discriminate.
  cbn [bind].
  pose proof (random_element_range src2 1024 (p * q) e0 src3 Hpq Ee) as He0.
  destruct (tweak_residues p q e0 Hp Hq Hp8 Hq8 He0)
    as [e [m2 [ng [Et [He [Hqp Hqq]]]]]].
  rewrite Et. cbn [bind].
  pose proof (select_root_range garbage src3) as Hroot.
  destruct (select_root garbage src3) as [root src4]. cbn [fst] in Hroot.
  destruct (root_extract_squares p q u0 v0 e root Hp Hq Hp4 Hq4 Hb He Hqp Hqq)
    as [s [Es [Hs Hss]]].
  rewrite Es. cbn [bind].
  destruct (signature_compress fuel s (p * q)) as [c| | |] eqn:Ec;
    try discriminate.
  cbn [bind]. intros [= <-].
  cbn [run_p run_q run_n run_e run_root run_sig run_zsig].
  pose proof (zsig_lag fuel s (p * q) c Hn21 Ec) as Hz.
  split; [exact Hp|]. split; [exact Hq|]. split; [exact Hp8|].
  split; [exact Hq8|]. split; [reflexivity|]. split; [exact He|].
  split; [exact Hqp|]. split; [exact Hqq|]. split; [exact Hroot|].
  split; [exact Hs|]. split; [exact Hss|exact Hz].
Qed.

Lemma pipeline_signs_witness :
  Z.prime 3 /\ Z.prime 31 /\ 3 mod 8 = 3 /\ 31 mod 8 = 7 /\ 93 = 3 * 31
  /\ 0 <= 4 < 93 /\ QR 4 3 /\ QR 4 31 /\ 0 <= 0 <= 3 /\ 0 <= 64 < 93
  /\ (64 * 64) mod 93 = 4 /\ 3 < Z.sqrt 93.
Proof.
  apply (pipeline_signs trial_probab_prime_p 64 Byte.x00 src_square
           (mkRun 3 31 93 (-30) 31 4 false false 0 64 6 3)).
  - intros m Hm. apply trial_prime_sound. unfold trial_probab_prime_p in Hm.
    destruct (trial_prime m); [reflexivity|exfalso; apply Hm; reflexivity].
  - vm_compute. reflexivity.
Defined.

Lemma verify_once_ret zsig e n t :
  verify_once zsig e n = Ret t ->
  n <> 0 /\ 0 < t /\ (zsig * zsig * e) mod Z.abs n = t * t.
Proof.
  unfold verify_once, Mpz.mod_, Mpz.sgn, Mpz.sqrtrem.
  destruct (Z.eqb_spec n 0) as [|Hn]; [discriminate|]. cbn [bind].
  set (m := (zsig * zsig * e) mod Z.abs n).
  assert (Hm : 0 <= m) by (apply Z.mod_pos_bound; lia).
  destruct (Z.eqb_spec (Z.sgn m) 0) as [|Hnz]; [discriminate|].
  assert (Hpos : 0 < m).
  { destruct (Z.eq_dec m 0) as [H0|H0]; [rewrite H0 in Hnz; cbn in Hnz; lia|lia]. }
  pose proof (sqrtrem_square m Hpos) as Hs.
  destruct (Z.sqrtrem m) as [t0 t2]. destruct Hs as [Ht0 [Hiff _]].
  destruct (Z.eqb_spec (Z.sgn t2) 0) as [Hs2|]; [|discriminate].
  cbn [negb]. intros [= <-]. rewrite Z.sgn_null_iff in Hs2.
  split; [assumption|]. split; [assumption|]. apply Hiff. assumption.
Qed.

Lemma verify_loop_once k zsig e n :
  verify_loop (S k) zsig e n = Ret tt <-> exists t, verify_once zsig e n = Ret t.
Proof.
  induction k as [|k IH].
  - cbn [verify_loop]. destruct (verify_once zsig e n) as [t| | |]; cbn [bind];
      split; try discriminate; try (intros [t' Ht']; discriminate).
    + intros _. exists t. reflexivity.
    + reflexivity.
  - change (verify_loop (S (S k)) zsig e n)
      with (_ <- verify_once zsig e n ;; verify_loop (S k) zsig e n).
    destruct (verify_once zsig e n) as [t| | |] eqn:Hv; cbn [bind].
    + rewrite IH. reflexivity.
    + split; [discriminate|intros [t' Ht']; discriminate].
    + split; [discriminate|intros [t' Ht']; discriminate].
    + split; [discriminate|intros [t' Ht']; discriminate].
Qed.

(** X13: main runs to its end exactly when the pipeline does and one
    pass of the verification accepts; the million passes all check the
    same three values.  So a run that ends normally has a zsig for which
    zsig*zsig*e mod n is a non-zero perfect square. *)
Theorem main_returns_iff_verified
    (test : Z -> Z -> Z) (fuel : nat) (garbage : Byte.byte) (src : source)
    (r : run) :
  (main test fuel garbage src = Ret r
   <-> pipeline test fuel garbage src = Ret r
       /\ exists t, verify_once (run_zsig r) (run_e r) (run_n r) = Ret t)
  /\ (main test fuel garbage src = Ret r ->
      exists t, 0 < t
                /\ (run_zsig r * run_zsig r * run_e r) mod Z.abs (run_n r) = t * t).
Proof.
  assert (Hk : exists k, verifications = S k).
  { exists (Z.to_nat 999999). unfold verifications.
    change 1000000 with (Z.succ 999999). apply Z2Nat.inj_succ. lia. }
  destruct Hk as [k Hk].
  assert (Hiff : main test fuel garbage src = Ret r
                 <-> pipeline test fuel garbage src = Ret r
                     /\ exists t, verify_once (run_zsig r) (run_e r) (run_n r) = Ret t).
  { unfold main. rewrite Hk.
    destruct (pipeline test fuel garbage src) as [r0| | |]; cbn [bind];
      try (split; [discriminate|intros [H _]; discriminate]).
    pose proof (verify_loop_once k (run_zsig r0) (run_e r0) (run_n r0)) as Hl.
    destruct (verify_loop (S k) (run_zsig r0) (run_e r0) (run_n r0)) as [[]| | |];
      cbn [bind].
    - split.
      + intros [= <-]. split; [reflexivity|]. apply Hl. reflexivity.
      + intros [[= <-] _]. reflexivity.
    - split; [discriminate|]. intros [[= <-] Ht]. apply Hl in Ht. discriminate.
    - split; [discriminate|]. intros [[= <-] Ht]. apply Hl in Ht. discriminate.
    - split; [discriminate|]. intros [[= <-] Ht]. apply Hl in Ht. discriminate. }
  split; [exact Hiff|].
  intros Hmain. apply Hiff in Hmain. destruct Hmain as [_ [t Ht]].
  apply verify_once_ret in Ht. exists t. tauto.
Qed.


(** X15: the element 0 passes the oracle and the tweak untouched, every
    root of it is the signature 0, and the compressor then divides by
    zero on its first pass: the program cannot sign 0. *)
Theorem zero_element_traps (p q : Z) (fuel : nat) :
  Z.prime p -> Z.prime q -> p mod 4 = 3 -> q mod 4 = 3 -> p <> q ->
  let '(n, u, v) := group_builder p q in
  residue_tweak 0 p q n = Ret (0, false, false)
  /\ (forall root, root_extract 0 p q u v n root = Ret 0)
  /\ signature_compress (S fuel) 0 n = DivideByZero.
Proof.
  intros Hp Hq Hp4 Hq4 Hne.
  pose proof (Zprime_pos p Hp) as Hp2. pose proof (Zprime_pos q Hq) as Hq2.
  destruct (group_builder_shape p q (distinct_primes_coprime p q Hp Hq Hne))
    as [u0 [v0 [Hb ->]]].
  assert (Hzp : 0 ^ p1over4 p = 0).
  { destruct (half_odd p Hp Hp4) as [k [Hk [_ [_ ->]]]]. apply Z.pow_0_l. lia. }
  assert (Hzq : 0 ^ p1over4 q = 0).
  { destruct (half_odd q Hq Hq4) as [k [Hk [_ [_ ->]]]]. apply Z.pow_0_l. lia. }
  assert (Hn : (p * q =? 0) = false) by (apply Z.eqb_neq; nia).
  split; [|split].
  - unfold residue_tweak.
    rewrite (oracle_value p Hp 0), (oracle_value q Hq 0), Hzp, Hzq.
    rewrite !Z.mod_0_l by lia. cbn. reflexivity.
  - intros root. unfold root_extract.
    rewrite !powm_prime by assumption. rewrite Hzp, Hzq, !Z.mod_0_l by lia.
    cbn [bind]. unfold Mpz.mod_. rewrite Hn.
    destruct (negb (Z.land root 1 =? 0)); destruct (negb (Z.land root 2 =? 0));
      cbn [Z.opp Z.mul Z.add]; rewrite Z.mod_0_l by (rewrite Z.abs_eq; nia);
      reflexivity.
  - rewrite signature_compress_unfold, cf_loop_unfold.
    rewrite (cf_step_zero (cf_init 0 (p * q))); [reflexivity|cbn; lia|reflexivity].
Qed.

Lemma zero_element_traps_witness :
  let '(n, u, v) := group_builder 3 7 in
  residue_tweak 0 3 7 n = Ret (0, false, false)
  /\ (forall root, root_extract 0 3 7 u v n root = Ret 0)
  /\ signature_compress (S 0) 0 n = DivideByZero.
Proof.
  apply (zero_element_traps 3 7 0).
  - apply trial_prime_sound. reflexivity.
  - apply trial_prime_sound. reflexivity.
  - reflexivity.
  - reflexivity.
  - lia.
Defined.

(** ** The clock *)

Lemma time_now_mod sec usec :
  time_now sec usec = (sec * 1000000 + usec) mod 2 ^ 64.
Proof.
  unfold time_now, u64.
  rewrite Z.mul_mod_idemp_l by lia.
  rewrite Z.add_mod_idemp_r, Z.add_mod_idemp_l by lia.
  reflexivity.
Qed.

(** X16: time_now is the timeval in microseconds modulo 2^64, and the
    unsigned difference of two readings is the exact number of
    microseconds between them whenever that number fits 64 bits, even if
    a reading has wrapped. *)
Theorem elapsed_time_exact (sec1 usec1 sec2 usec2 : Z) :
  0 <= (sec2 * 1000000 + usec2) - (sec1 * 1000000 + usec1) < 2 ^ 64 ->
  elapsed_usec (time_now sec1 usec1) (time_now sec2 usec2)
  = (sec2 * 1000000 + usec2) - (sec1 * 1000000 + usec1)
  /\ (0 <= sec1 * 1000000 + usec1 < 2 ^ 64 ->
      time_now sec1 usec1 = sec1 * 1000000 + usec1).
Proof.
  intros Hd. rewrite !time_now_mod. unfold elapsed_usec, u64. split.
  - rewrite <- Zminus_mod. apply Z.mod_small. assumption.
  - intros H1. apply Z.mod_small. assumption.
Qed.

Lemma elapsed_time_exact_witness :
  elapsed_usec (time_now 1 999999) (time_now 2 5)
  = (2 * 1000000 + 5) - (1 * 1000000 + 999999)
  /\ (0 <= 1 * 1000000 + 999999 < 2 ^ 64 ->
      time_now 1 999999 = 1 * 1000000 + 999999).
Proof. apply (elapsed_time_exact 1 999999 2 5). lia. Defined.
